(** * stdin2testu01.c: a buffered reader of standard input for TestU01

    Shallow embedding of [src/userguide/c/rng/stdin2testu01.c] and the
    properties of its three callbacks ([nextInt], [nextDouble], [dummy]),
    of [createStdinReader] / [deleteStdinReader] and of [main].

    Conventions.
    - Unsigned C integers ([uint32_t], [unsigned long], bytes) are values
      of [N]; every wrap-around is written out with [mod].  [int] is [Z].
    - The array [unsigned long buffer[BUFFER_LENGTH]] is kept as the bytes
      it occupies in memory, because [fread] fills it bytewise from the
      stream: slot [i] is the [sizeof (unsigned long)] bytes starting at
      offset [i * sizeof (unsigned long)], read in the byte order of the
      machine.
    - [sizeof (unsigned long)] and the byte order are not fixed by the
      source; they are the fields of a [Platform].
    - [double] values produced by [nextDouble] are rationals: the operand
      is below [2^32] and the divisor is [2^32], so the IEEE-754 binary64
      conversion and division are both exact. *)

From Stdlib Require Import NArith ZArith QArith List Lia Bool.
From Stdlib Require Import Strings.String Strings.Ascii Strings.Byte.
Import ListNotations.

Local Open Scope N_scope.

(** ** Constants of the source *)

Definition TU_S : string := "SmallCrush".
Definition TU_C : string := "Crush".
Definition TU_B : string := "BigCrush".
Definition BUFFER_LENGTH : N := 256.

(** ** The machine: size of [unsigned long] and byte order *)

Record Platform : Type := {
  sizeof_unsigned_long : nat;
  big_endian : bool
}.

(** The common 64-bit Unix data model, little endian (x86-64, AArch64). *)
Definition LP64 : Platform :=
  {| sizeof_unsigned_long := 8; big_endian := false |}.

(** 32-bit data model (also the size of [long] on 64-bit Windows). *)
Definition ILP32 : Platform :=
  {| sizeof_unsigned_long := 4; big_endian := false |}.

(** 64-bit big-endian machine (s390x, ppc64). *)
Definition LP64_BE : Platform :=
  {| sizeof_unsigned_long := 8; big_endian := true |}.

(** ** Bytes in memory and the integers they denote *)

Module Mem.

(** Value of a byte sequence, least significant byte first. *)
Fixpoint le_value (bs : list byte) : N :=
  match bs with
  | [] => 0
  | b :: rest => Byte.to_N b + 256 * le_value rest
  end.

Definition byte_of_N (n : N) : byte :=
  match Byte.of_N (n mod 256) with
  | Some b => b
  | None => x00
  end.

(** The [k] low-order bytes of [n], least significant first. *)
Fixpoint le_bytes (k : nat) (n : N) : list byte :=
  match k with
  | O => []
  | S k' => byte_of_N n :: le_bytes k' (n / 256)
  end.

Section Native.
Variable P : Platform.

(** An object read from memory in the byte order of the machine. *)
Definition load (bs : list byte) : N :=
  if big_endian P then le_value (rev bs) else le_value bs.

(** The object representation of a [k]-byte unsigned integer. *)
Definition store (k : nat) (n : N) : list byte :=
  if big_endian P then rev (le_bytes k n) else le_bytes k n.

(** [buf[i]] for an array of [unsigned long] laid out in [buf]. *)
Definition ulong_at (buf : list byte) (i : N) : N :=
  load (firstn (sizeof_unsigned_long P)
               (skipn (N.to_nat i * sizeof_unsigned_long P) buf)).

(** A stream of 32-bit words as the bytes that carry it. *)
Definition words32 (ws : list N) : list byte :=
  flat_map (store 4) ws.
End Native.

End Mem.

(** ** Integer conversions *)

(** Conversion to [uint32_t]. *)
Definition uint32 (n : N) : N := n mod 2 ^ 32.

(** Conversion to [unsigned long]. *)
Definition to_unsigned_long (P : Platform) (n : N) : N :=
  n mod 2 ^ (8 * N.of_nat (sizeof_unsigned_long P)).

(** ** Standard streams *)

(** An input stream: the bytes not yet read, the translation mode set by
    [freopen], and the number of [fread] calls served so far (a ghost
    counter, never read by the program). *)
Record FILE : Type := {
  unread : list byte;
  binary : bool;
  reads : nat
}.

(** What the callbacks can touch outside the reader state. *)
Record Env : Type := {
  stdin : FILE;
  stdout : string
}.

(** [fread (ptr, size, nmemb, stream)].  Up to [size * nmemb] bytes are
    moved from the stream to the start of [ptr]; bytes of [ptr] beyond
    those received keep their former contents.  The result is the new
    memory, the number of complete items, and the stream. *)
Definition fread (ptr : list byte) (size nmemb : nat) (f : FILE)
  : list byte * nat * FILE :=
  let got := firstn (size * nmemb) (unread f) in
  (got ++ skipn (List.length got) ptr,
   Nat.div (List.length got) size,
   {| unread := skipn (size * nmemb) (unread f);
      binary := binary f;
      reads := S (reads f) |}).

(** [freopen (NULL, mode, stream)], for a stream that is at the start of
    its input or cannot seek (a pipe), and a call that succeeds: only
    the mode changes.  A C library that reopens the underlying file may
    move a seekable stream back to its beginning; that is outside this
    model, whose streams start where the program's input starts. *)
Definition freopen (mode : string) (f : FILE) : FILE :=
  {| unread := unread f;
     binary := match String.index 0 "b" mode with
               | Some _ => true
               | None => false
               end;
     reads := reads f |}.

(** [printf] restricted to the conversion the source uses, [%s]. *)
Fixpoint format (fmt : string) (args : list string) : string :=
  match fmt with
  | EmptyString => EmptyString
  | String c rest =>
      match c, rest with
      | "%"%char, String "s"%char rest' =>
          match args with
          | a :: args' => (a ++ format rest' args')%string
          | [] => format rest' []
          end
      | _, _ => String c (format rest args)
      end
  end.

Definition printf (fmt : string) (args : list string) (e : Env) : Env :=
  {| stdin := stdin e; stdout := (stdout e ++ format fmt args)%string |}.

(** ** The reader *)

Record StdinReader_state : Type := {
  buffer : list byte;   (* unsigned long buffer[BUFFER_LENGTH] *)
  index : N             (* uint32_t *)
}.

(** The [void *par] argument of the callbacks; the program only ever
    stores [NULL] in the generator. *)
Inductive void_ptr : Type := NULL.

Section Reader.
Variable P : Platform.

(** The body of the conditional in [nextInt]. *)
Definition refill (sta : StdinReader_state) (e : Env)
  : StdinReader_state * Env :=
  let '(buf, _, f) :=
    fread (buffer sta) (sizeof_unsigned_long P)
          (N.to_nat BUFFER_LENGTH) (stdin e) in
  ({| buffer := buf; index := 0 |},
   {| stdin := f; stdout := stdout e |}).

Definition nextInt (par : void_ptr) (sta : StdinReader_state) (e : Env)
  : N * StdinReader_state * Env :=
  let '(sta1, e1) :=
    if BUFFER_LENGTH <=? index sta then refill sta e else (sta, e) in
  let random := uint32 (Mem.ulong_at P (buffer sta1) (index sta1)) in
  let sta2 := {| buffer := buffer sta1;
                 index := uint32 (index sta1 + 1) |} in
  (to_unsigned_long P random, sta2, e1).

Definition nextDouble (par : void_ptr) (sta : StdinReader_state) (e : Env)
  : Q * StdinReader_state * Env :=
  let '(r, sta', e') := nextInt par sta e in
  ((inject_Z (Z.of_N r) / inject_Z 4294967296)%Q, sta', e').

Definition dummy (sta : StdinReader_state) (e : Env)
  : StdinReader_state * Env :=
  (sta, printf "N/A" [] e).

End Reader.

(** ** The generator object of TestU01 ([unif01_Gen]) *)

Record unif01_Gen : Type := {
  state : StdinReader_state;
  param : void_ptr;
  name : string;
  Write : StdinReader_state -> Env -> StdinReader_state * Env;
  GetU01 : void_ptr -> StdinReader_state -> Env -> Q * StdinReader_state * Env;
  GetBits : void_ptr -> StdinReader_state -> Env -> N * StdinReader_state * Env
}.

(** ** C strings *)

Module CString.

Definition NUL : ascii := Ascii.zero.

(** A string a [char *] can point to: no embedded terminator. *)
Fixpoint wf (s : string) : Prop :=
  match s with
  | EmptyString => True
  | String c rest => c <> NUL /\ wf rest
  end.

Fixpoint wfb (s : string) : bool :=
  match s with
  | EmptyString => true
  | String c rest => negb (Ascii.eqb c NUL) && wfb rest
  end.

Definition code (c : ascii) : Z := Z.of_N (N_of_ascii c).

(** [strcmp]: difference of the first pair of differing characters
    (as [unsigned char]), the end of a string counting as [NUL]. *)
Fixpoint strcmp (s t : string) : Z :=
  match s, t with
  | EmptyString, EmptyString => 0
  | EmptyString, String d _ => (0 - code d)%Z
  | String c _, EmptyString => code c
  | String c s', String d t' =>
      if Ascii.eqb c d then strcmp s' t' else (code c - code d)%Z
  end.

Definition strlen (s : string) : nat := String.length s.

(** A [char] array as allocated memory, and the string it holds. *)
Definition chars := list ascii.

Fixpoint string_at (m : chars) : string :=
  match m with
  | [] => EmptyString
  | c :: rest => if Ascii.eqb c NUL then EmptyString
                 else String c (string_at rest)
  end.

(** [strncpy (dst, src, n)]: exactly [n] characters are written, the
    characters of [src] followed by [NUL]s if [src] is shorter. *)
Definition strncpy (dst : chars) (src : string) (n : nat) : chars :=
  let s := list_ascii_of_string src in
  firstn n (s ++ repeat NUL n) ++ skipn n dst.

Definition newline : string := String (ascii_of_nat 10) EmptyString.

End CString.

(** ** The process: library calls, [exit], undefined behaviour *)

Inductive battery : Type := SmallCrush | Crush | BigCrush.

(** The three heap blocks the program ever allocates. *)
Inductive block : Type := StateBlock | GenBlock | NameBlock.

Inductive event : Type :=
| EvMalloc (b : block)
| EvCalloc (b : block)
| EvFreopen (mode : string)
| EvPrintf (text : string)
| EvBattery (b : battery)
| EvFree (b : block).

Record Proc : Type := {
  env : Env;
  trace : list event
}.

Inductive outcome (A : Type) : Type :=
| Ret (a : A) (p : Proc)          (* normal completion *)
| Exit (status : Z) (p : Proc)    (* exit (status) was called *)
| Undefined.                      (* a null pointer was dereferenced *)
Arguments Ret {A} a p.
Arguments Exit {A} status p.
Arguments Undefined {A}.

Definition M (A : Type) : Type := Proc -> outcome A.

Definition ret {A} (a : A) : M A := fun p => Ret a p.

Definition bind {A B} (m : M A) (k : A -> M B) : M B :=
  fun p =>
    match m p with
    | Ret a p' => k a p'
    | Exit s p' => Exit s p'
    | Undefined => Undefined
    end.

Notation "x <- m ;; k" := (bind m (fun x => k))
  (at level 61, m at next level, right associativity).
Notation "m ;;; k" := (bind m (fun _ => k))
  (at level 61, right associativity).

Definition exit {A} (status : Z) : M A := fun p => Exit status p.

Definition log (ev : event) : M unit :=
  fun p => Ret tt {| env := env p; trace := trace p ++ [ev] |}.

Definition on_env (f : Env -> Env) : M unit :=
  fun p => Ret tt {| env := f (env p); trace := trace p |}.

(** Reading through a [char *] that may be null. *)
Definition deref {A} (ptr : option A) : M A :=
  match ptr with
  | Some a => ret a
  | None => fun _ => Undefined
  end.

Definition m_printf (fmt : string) (args : list string) : M unit :=
  log (EvPrintf (format fmt args)) ;;; on_env (printf fmt args).

Definition m_freopen (mode : string) : M unit :=
  log (EvFreopen mode) ;;;
  on_env (fun e => {| stdin := freopen mode (stdin e); stdout := stdout e |}).

Definition util_Free (b : block) : M unit := log (EvFree b).

(** ** The program *)

Section Program.
Variable P : Platform.

(** The external test batteries of TestU01.  A battery drives the
    generator through its callbacks, which changes the reader state
    held by the generator, consumes [stdin] and writes its report to
    [stdout]. *)
Variables bbattery_SmallCrush bbattery_Crush bbattery_BigCrush
  : unif01_Gen -> Env -> unif01_Gen * Env.

(** Contents of memory handed out by [util_Malloc]: indeterminate as far
    as the program is concerned. *)
Variable junk : list byte.

Definition sizeof_buffer : nat :=
  N.to_nat BUFFER_LENGTH * sizeof_unsigned_long P.

(** [util_Malloc] for the reader state; the result is the memory of
    its [buffer] member. *)
Definition util_Malloc_state : M (list byte) :=
  log (EvMalloc StateBlock) ;;;
  ret (firstn sizeof_buffer (junk ++ repeat x00 sizeof_buffer)).

Definition util_Malloc_gen : M unit := log (EvMalloc GenBlock).

Definition util_Calloc (b : block) (n : nat) : M CString.chars :=
  log (EvCalloc b) ;;; ret (repeat CString.NUL n).

Definition call_battery (b : battery)
    (run : unif01_Gen -> Env -> unif01_Gen * Env) (gen : unif01_Gen)
  : M unif01_Gen :=
  log (EvBattery b) ;;;
  fun p => let '(gen', e') := run gen (env p) in
           Ret gen' {| env := e'; trace := trace p |}.

Definition createStdinReader : M unif01_Gen :=
  mem <- util_Malloc_state ;;
  util_Malloc_gen ;;;
  let name_ := "stdin"%string in
  let len := CString.strlen name_ in
  gname <- util_Calloc NameBlock (len + 1) ;;
  let gname := CString.strncpy gname name_ len in
  m_freopen "rb" ;;;
  ret {| state := {| buffer := mem; index := BUFFER_LENGTH |};
         param := NULL;
         name := CString.string_at gname;
         Write := dummy;
         GetU01 := nextDouble P;
         GetBits := nextInt P |}.

Definition deleteStdinReader (gen : unif01_Gen) : M unit :=
  util_Free StateBlock ;;;
  util_Free NameBlock ;;;
  util_Free GenBlock.

Definition usage_fmt : string :=
  ("[ERROR] Specify test suite: '%s', '%s' or '%s'" ++ CString.newline)%string.

Definition unknown_fmt : string :=
  ("[ERROR] Unknown specification: '%s'" ++ CString.newline)%string.

(** [argv] holds the [argc] argument strings; [argv[argc]] is the null
    pointer, so [argv[1]] is null when the program has no argument. *)
Definition main (argv : list string) : M Z :=
  gen <- createStdinReader ;;
  let argc := Z.of_nat (List.length argv) in
  let spec := nth_error argv 1 in
  gen' <- (if (argc <? 2)%Z then
             m_printf usage_fmt [TU_S; TU_C; TU_B] ;;;
             exit 1%Z
           else
             s <- deref spec ;;
             if (CString.strcmp s TU_S =? 0)%Z then
               call_battery SmallCrush bbattery_SmallCrush gen
             else if (CString.strcmp s TU_C =? 0)%Z then
               call_battery Crush bbattery_Crush gen
             else if (CString.strcmp s TU_B =? 0)%Z then
               call_battery BigCrush bbattery_BigCrush gen
             else
               m_printf unknown_fmt [s] ;;;
               exit 1%Z) ;;
  deleteStdinReader gen' ;;;
  ret 0%Z.

(** [n] successive calls of [nextInt]: the values returned, in order,
    and the final state. *)
Fixpoint nextInts (n : nat) (sta : StdinReader_state) (e : Env)
  : list N * StdinReader_state * Env :=
  match n with
  | O => ([], sta, e)
  | S n' =>
      let '(r, sta1, e1) := nextInt P NULL sta e in
      let '(rs, sta2, e2) := nextInts n' sta1 e1 in
      (r :: rs, sta2, e2)
  end.

End Program.

(** A process started with the given standard input. *)
Definition start (input : list byte) : Proc :=
  {| env := {| stdin := {| unread := input; binary := false; reads := 0 |};
               stdout := EmptyString |};
     trace := [] |}.

(** A stand-in battery for running the program: it draws [n] integers
    and one double, then asks the generator to describe itself. *)
Definition sample_battery (P : Platform) (n : nat)
    (gen : unif01_Gen) (e : Env) : unif01_Gen * Env :=
  let fix draw (k : nat) (sta : StdinReader_state) (e : Env) :=
    match k with
    | O => (sta, e)
    | S k' => let '(_, sta', e') := GetBits gen (param gen) sta e in
              draw k' sta' e'
    end in
  let '(sta1, e1) := draw n (state gen) e in
  let '(_, sta2, e2) := GetU01 gen (param gen) sta1 e1 in
  let '(sta3, e3) := Write gen sta2 e2 in
  ({| state := sta3; param := param gen; name := name gen;
      Write := Write gen; GetU01 := GetU01 gen; GetBits := GetBits gen |},
   e3).

(** ** Vocabulary of the statements *)

(** The library calls made by [createStdinReader], in order. *)
Definition creation_events : list event :=
  [EvMalloc StateBlock; EvMalloc GenBlock; EvCalloc NameBlock;
   EvFreopen "rb"].

(** The library calls made by [deleteStdinReader], in order. *)
Definition deletion_events : list event :=
  [EvFree StateBlock; EvFree NameBlock; EvFree GenBlock].

(** The process as [createStdinReader] leaves it. *)
Definition after_create (p : Proc) : Proc :=
  {| env := {| stdin := freopen "rb" (stdin (env p));
               stdout := stdout (env p) |};
     trace := trace p ++ creation_events |}.

(** The generator [createStdinReader] returns. *)
Definition created (P : Platform) (junk : list byte) : unif01_Gen :=
  {| state := {| buffer := firstn (sizeof_buffer P)
                                  (junk ++ repeat x00 (sizeof_buffer P));
                 index := BUFFER_LENGTH |};
     param := NULL;
     name := "stdin";
     Write := dummy;
     GetU01 := nextDouble P;
     GetBits := nextInt P |}.

Definition battery_name (b : battery) : string :=
  match b with
  | SmallCrush => TU_S
  | Crush => TU_C
  | BigCrush => TU_B
  end.

Definition is_battery_event (ev : event) : bool :=
  match ev with
  | EvBattery _ => true
  | _ => false
  end.

Definition is_free_event (ev : event) : bool :=
  match ev with
  | EvFree _ => true
  | _ => false
  end.

(** The battery function that belongs to a battery. *)
Definition run_of (bS bC bB : unif01_Gen -> Env -> unif01_Gen * Env)
    (b : battery) : unif01_Gen -> Env -> unif01_Gen * Env :=
  match b with
  | SmallCrush => bS
  | Crush => bC
  | BigCrush => bB
  end.

(** The two diagnostics, as they reach the standard output. *)
Definition usage_message : string :=
  ("[ERROR] Specify test suite: 'SmallCrush', 'Crush' or 'BigCrush'"
   ++ CString.newline)%string.

Definition unknown_message (s : string) : string :=
  ("[ERROR] Unknown specification: '" ++ s ++ "'" ++ CString.newline)%string.

(** [mentions s t]: the text [s] occurs in [t]. *)
Definition mentions (s t : string) : bool :=
  match String.index 0 s t with
  | Some _ => true
  | None => false
  end.

(** The reader state [nextInt] selects its value from: the refilled
    state when the index has reached the end of the buffer. *)
Definition selected (P : Platform) (sta : StdinReader_state) (e : Env)
  : StdinReader_state * Env :=
  if BUFFER_LENGTH <=? index sta then refill P sta e else (sta, e).

(** The invariant of the reader state. *)
Definition index_ok (sta : StdinReader_state) : Prop :=
  index sta <= BUFFER_LENGTH.

(** Sample data for running the definitions. *)
Definition words12 : list N := [1; 2; 3; 4; 5; 6; 7; 8; 9; 10; 11; 12].

Definition zeroed (P : Platform) : StdinReader_state :=
  {| buffer := repeat x00 (sizeof_buffer P); index := BUFFER_LENGTH |}.

Definition env_of (input : list byte) : Env := env (start input).

Definition sample_argv (suite : string) : list string :=
  ["stdin2testu01"%string; suite].

(** The [k]-th item of [sizeof (unsigned long)] bytes of a stream, read
    as an [unsigned long] and narrowed to [uint32_t]. *)
Definition stream_item (P : Platform) (stream : list byte) (k : nat) : N :=
  uint32 (Mem.load P (firstn (sizeof_unsigned_long P)
                             (skipn (k * sizeof_unsigned_long P) stream))).

(** Slot [k] of a buffer, narrowed to [uint32_t]. *)
Definition slot32 (P : Platform) (buf : list byte) (k : nat) : N :=
  uint32 (Mem.ulong_at P buf (N.of_nat k)).

(** Number of blocks of [BUFFER_LENGTH] values needed for [n] values. *)
Definition blocks_for (n : nat) : nat :=
  Nat.div (n + (N.to_nat BUFFER_LENGTH - 1)) (N.to_nat BUFFER_LENGTH).

(** A caller that uses both value callbacks: the requests it makes, in
    order, and the answers it gets. *)
Inductive request : Type := WantBits | WantU01.

Fixpoint serve (P : Platform) (reqs : list request)
    (sta : StdinReader_state) (e : Env)
  : list (N + Q) * StdinReader_state * Env :=
  match reqs with
  | [] => ([], sta, e)
  | WantBits :: rest =>
      let '(v, sta1, e1) := nextInt P NULL sta e in
      let '(vs, sta2, e2) := serve P rest sta1 e1 in
      (inl v :: vs, sta2, e2)
  | WantU01 :: rest =>
      let '(d, sta1, e1) := nextDouble P NULL sta e in
      let '(vs, sta2, e2) := serve P rest sta1 e1 in
      (inr d :: vs, sta2, e2)
  end.

(** The answer to a request when the next value of the reader is [v]. *)
Definition answer (r : request) (v : N) : N + Q :=
  match r with
  | WantBits => inl v
  | WantU01 => inr (inject_Z (Z.of_N v) / inject_Z 4294967296)%Q
  end.

(** Heap accounting over a trace: the blocks allocated and not yet
    freed, or [None] if a block is freed that is not allocated or is
    allocated twice. *)
Definition block_eqb (a b : block) : bool :=
  match a, b with
  | StateBlock, StateBlock | GenBlock, GenBlock | NameBlock, NameBlock => true
  | _, _ => false
  end.

Fixpoint heap_after (evs : list event) (live : list block)
  : option (list block) :=
  match evs with
  | [] => Some live
  | EvMalloc b :: rest | EvCalloc b :: rest =>
      if existsb (block_eqb b) live then None
      else heap_after rest (live ++ [b])
  | EvFree b :: rest =>
      if existsb (block_eqb b) live
      then heap_after rest (filter (fun x => negb (block_eqb b x)) live)
      else None
  | _ :: rest => heap_after rest live
  end.

Definition words3 : list N := [10; 20; 30].

(** * Properties *)

(** ** Arithmetic of the conversions *)

Lemma uint32_lt (n : N) : uint32 n < 2 ^ 32.
Proof. unfold uint32. apply N.mod_upper_bound. discriminate. Qed.

Lemma uint32_small (n : N) : n < 2 ^ 32 -> uint32 n = n.
Proof. intros H. unfold uint32. now apply N.mod_small. Qed.

Lemma le_value_lt (bs : list byte) :
  Mem.le_value bs < 256 ^ N.of_nat (List.length bs).
Proof.
  induction bs as [|b rest IH].
  - reflexivity.
  - cbn [Mem.le_value List.length].
    rewrite Nat2N.inj_succ, N.pow_succ_r'.
    pose proof (Byte.to_N_bounded b). lia.
Qed.

Lemma load_lt (P : Platform) (bs : list byte) :
  Mem.load P bs < 256 ^ N.of_nat (List.length bs).
Proof.
  unfold Mem.load. destruct (big_endian P).
  - rewrite <- (length_rev bs). apply le_value_lt.
  - apply le_value_lt.
Qed.

Lemma pow256 (k : N) : 256 ^ k = 2 ^ (8 * k).
Proof. rewrite N.pow_mul_r. reflexivity. Qed.

Lemma ulong_at_lt (P : Platform) (buf : list byte) (i : N) :
  Mem.ulong_at P buf i < 2 ^ (8 * N.of_nat (sizeof_unsigned_long P)).
Proof.
  unfold Mem.ulong_at.
  eapply N.lt_le_trans; [apply load_lt|].
  rewrite <- pow256. apply N.pow_le_mono_r; [discriminate|].
  pose proof (firstn_le_length (sizeof_unsigned_long P)
                (skipn (N.to_nat i * sizeof_unsigned_long P) buf)) as H.
  lia.
Qed.

(** Widening the [uint32_t] local back to [unsigned long] loses nothing,
    whatever the width of [unsigned long]. *)
Lemma to_unsigned_long_uint32 (P : Platform) (buf : list byte) (i : N) :
  to_unsigned_long P (uint32 (Mem.ulong_at P buf i))
  = uint32 (Mem.ulong_at P buf i).
Proof.
  unfold to_unsigned_long. apply N.mod_small.
  eapply N.le_lt_trans; [|apply (ulong_at_lt P buf i)].
  unfold uint32. apply N.Div0.mod_le.
Qed.

(** ** Equations of the callbacks *)

Lemma refill_eq (P : Platform) (sta : StdinReader_state) (e : Env) :
  refill P sta e =
  (let got := firstn (sizeof_unsigned_long P * N.to_nat BUFFER_LENGTH)
                     (unread (stdin e)) in
   {| buffer := got ++ skipn (List.length got) (buffer sta); index := 0 |},
   {| stdin := {| unread := skipn (sizeof_unsigned_long P * N.to_nat BUFFER_LENGTH)
                                  (unread (stdin e));
                  binary := binary (stdin e);
                  reads := S (reads (stdin e)) |};
      stdout := stdout e |}).
Proof. reflexivity. Qed.

Lemma nextInt_eq (P : Platform) (par : void_ptr)
    (sta : StdinReader_state) (e : Env) :
  nextInt P par sta e =
  (uint32 (Mem.ulong_at P (buffer (fst (selected P sta e)))
                          (index (fst (selected P sta e)))),
   {| buffer := buffer (fst (selected P sta e));
      index := uint32 (index (fst (selected P sta e)) + 1) |},
   snd (selected P sta e)).
Proof.
  unfold nextInt, selected.
  destruct (BUFFER_LENGTH <=? index sta);
    [destruct (refill P sta e) as [sta1 e1]|];
    cbn [fst snd]; now rewrite to_unsigned_long_uint32.
Qed.

Lemma nextDouble_eq (P : Platform) (par : void_ptr)
    (sta : StdinReader_state) (e : Env) :
  nextDouble P par sta e =
  ((inject_Z (Z.of_N (fst (fst (nextInt P par sta e))))
    / inject_Z 4294967296)%Q,
   snd (fst (nextInt P par sta e)),
   snd (nextInt P par sta e)).
Proof.
  unfold nextDouble. now destruct (nextInt P par sta e) as [[r sta'] e'].
Qed.

Lemma selected_index (P : Platform) (sta : StdinReader_state) (e : Env) :
  index (fst (selected P sta e)) < BUFFER_LENGTH.
Proof.
  unfold selected. destruct (N.leb_spec BUFFER_LENGTH (index sta)).
  - reflexivity.
  - assumption.
Qed.

Lemma nextInt_value_lt (P : Platform) (par : void_ptr)
    (sta : StdinReader_state) (e : Env) :
  fst (fst (nextInt P par sta e)) < 2 ^ 32.
Proof. rewrite nextInt_eq. cbn [fst]. apply uint32_lt. Qed.

Lemma nextInt_index (P : Platform) (par : void_ptr)
    (sta : StdinReader_state) (e : Env) :
  index (snd (fst (nextInt P par sta e)))
  = index (fst (selected P sta e)) + 1.
Proof.
  rewrite nextInt_eq. cbn [fst snd index].
  apply uint32_small.
  pose proof (selected_index P sta e) as H.
  unfold BUFFER_LENGTH in H. change (2 ^ 32) with 4294967296. lia.
Qed.

Lemma selected_below (P : Platform) (sta : StdinReader_state) (e : Env) :
  index sta < BUFFER_LENGTH -> selected P sta e = (sta, e).
Proof.
  intros H. unfold selected.
  destruct (N.leb_spec BUFFER_LENGTH (index sta)); [lia | reflexivity].
Qed.

Lemma selected_at_end (P : Platform) (sta : StdinReader_state) (e : Env) :
  BUFFER_LENGTH <= index sta -> selected P sta e = refill P sta e.
Proof.
  intros H. unfold selected.
  destruct (N.leb_spec BUFFER_LENGTH (index sta)); [reflexivity | lia].
Qed.

(** ** Slices of memory *)

Lemma slice_of_filled {A : Type} (l r : list A) (n k sz : nat) :
  (k + sz <= n)%nat -> (k + sz <= List.length l)%nat ->
  firstn sz (skipn k (firstn n l ++ r)) = firstn sz (skipn k l).
Proof.
  intros Hn Hl.
  assert (Hlen : (k + sz <= List.length (firstn n l))%nat)
    by (rewrite length_firstn; lia).
  rewrite skipn_app.
  replace (k - List.length (firstn n l))%nat with 0%nat by lia.
  rewrite firstn_app, length_skipn.
  replace (sz - (List.length (firstn n l) - k))%nat with 0%nat by lia.
  cbn [skipn firstn]. rewrite app_nil_r.
  rewrite skipn_firstn_comm, firstn_firstn.
  f_equal. lia.
Qed.

(** After a refill, every slot that the stream could fill completely
    holds the [sizeof (unsigned long)] stream bytes at its offset. *)
Lemma refill_slot (P : Platform) (sta : StdinReader_state) (e : Env)
    (i : nat) :
  (i < N.to_nat BUFFER_LENGTH)%nat ->
  ((i + 1) * sizeof_unsigned_long P <= List.length (unread (stdin e)))%nat ->
  Mem.ulong_at P (buffer (fst (refill P sta e))) (N.of_nat i)
  = Mem.load P (firstn (sizeof_unsigned_long P)
                       (skipn (i * sizeof_unsigned_long P)
                              (unread (stdin e)))).
Proof.
  intros Hi Hlen. rewrite refill_eq. cbn [fst buffer].
  unfold Mem.ulong_at. rewrite Nat2N.id. f_equal.
  apply slice_of_filled; nia.
Qed.

(** ** The three callbacks *)

(** C9.  The value [nextInt] returns is the selected buffer element
    reduced modulo [2^32] by the [uint32_t] local, although the buffer
    elements and the return type are [unsigned long]; a refill takes
    [sizeof (unsigned long)] bytes of the stream for each of the
    [BUFFER_LENGTH] slots; so the value is below [2^32] and [nextDouble]
    is below [1]. *)
Theorem nextInt_narrows_to_uint32 (P : Platform) (par : void_ptr)
    (sta : StdinReader_state) (e : Env) :
  let sel := fst (selected P sta e) in
  let sz := sizeof_unsigned_long P in
  fst (fst (nextInt P par sta e))
    = Mem.ulong_at P (buffer sel) (index sel) mod 2 ^ 32
  /\ index sel < BUFFER_LENGTH
  /\ fst (fst (nextInt P par sta e)) < 2 ^ 32
  /\ unread (stdin (snd (refill P sta e)))
     = skipn (N.to_nat BUFFER_LENGTH * sz) (unread (stdin e))
  /\ (forall i : nat,
        (i < N.to_nat BUFFER_LENGTH)%nat ->
        (N.to_nat BUFFER_LENGTH * sz <= List.length (unread (stdin e)))%nat ->
        Mem.ulong_at P (buffer (fst (refill P sta e))) (N.of_nat i)
        = Mem.load P (firstn sz (skipn (i * sz) (unread (stdin e)))))
  /\ (fst (fst (nextDouble P par sta e)) < 1)%Q.
Proof.
  cbv zeta. repeat split.
  - rewrite nextInt_eq. reflexivity.
  - apply selected_index.
  - apply nextInt_value_lt.
  - rewrite refill_eq. cbn [snd stdin unread]. f_equal. apply Nat.mul_comm.
  - intros i Hi Hlen. apply refill_slot; [assumption | nia].
  - rewrite nextDouble_eq. cbn [fst].
    pose proof (nextInt_value_lt P par sta e) as H.
    apply Qlt_shift_div_r; [reflexivity|].
    rewrite Qmult_1_l. rewrite <- Zlt_Qlt.
    change (2 ^ 32) with 4294967296 in H. lia.
Qed.

(** The refilled slots on a 64-bit machine: slot 1 is made of the third
    and fourth 32-bit words of the stream. *)
Lemma nextInt_narrows_to_uint32_witness :
  Mem.ulong_at LP64
    (buffer (fst (refill LP64 (zeroed LP64)
                    (env_of (Mem.words32 LP64 (words12 ++ repeat 0 500))))))
    (N.of_nat 1)
  = 3 + 2 ^ 32 * 4.
Proof.
  etransitivity.
  - apply (nextInt_narrows_to_uint32 LP64 NULL (zeroed LP64)
             (env_of (Mem.words32 LP64 (words12 ++ repeat 0 500)))).
    + vm_compute. lia.
    + vm_compute. lia.
  - vm_compute. reflexivity.
Defined.

(** C2.  [nextDouble] returns the value of one [nextInt] call divided by
    [2^32], leaves the reader and the stream exactly as that one call
    leaves them, and its value lies in [[0, 1)]. *)
Theorem nextDouble_is_nextInt_scaled (P : Platform) (par : void_ptr)
    (sta : StdinReader_state) (e : Env) :
  let r := fst (fst (nextInt P par sta e)) in
  let d := fst (fst (nextDouble P par sta e)) in
  d = (inject_Z (Z.of_N r) / inject_Z (2 ^ 32))%Q
  /\ snd (fst (nextDouble P par sta e)) = snd (fst (nextInt P par sta e))
  /\ snd (nextDouble P par sta e) = snd (nextInt P par sta e)
  /\ index (snd (fst (nextDouble P par sta e)))
     = index (fst (selected P sta e)) + 1
  /\ (0 <= d)%Q /\ (d < 1)%Q.
Proof.
  cbv zeta. rewrite nextDouble_eq. cbn [fst snd].
  pose proof (nextInt_value_lt P par sta e) as H.
  change (2 ^ 32) with 4294967296 in H.
  repeat split.
  - apply nextInt_index.
  - apply Qle_shift_div_l; [reflexivity|].
    rewrite Qmult_0_l. change 0%Q with (inject_Z 0).
    rewrite <- Zle_Qle. lia.
  - apply Qlt_shift_div_r; [reflexivity|].
    rewrite Qmult_1_l. rewrite <- Zlt_Qlt. lia.
Qed.

(** C8.  [dummy] appends ["N/A"] to the standard output and changes
    nothing else: the reader state (buffer and index) and the input
    stream are as before. *)
Theorem dummy_writes_NA_only (sta : StdinReader_state) (e : Env) :
  fst (dummy sta e) = sta
  /\ buffer (fst (dummy sta e)) = buffer sta
  /\ index (fst (dummy sta e)) = index sta
  /\ stdin (snd (dummy sta e)) = stdin e
  /\ stdout (snd (dummy sta e)) = (stdout e ++ "N/A")%string.
Proof. repeat split. Qed.

(** ** Creation *)

Lemma createStdinReader_eq (P : Platform) (junk : list byte) (p : Proc) :
  createStdinReader P junk p = Ret (created P junk) (after_create p).
Proof.
  unfold createStdinReader, util_Malloc_state, util_Malloc_gen, util_Calloc,
    m_freopen, on_env, log, bind, ret, after_create, creation_events.
  cbn [env trace]. rewrite <- !app_assoc. reflexivity.
Qed.

(** ** The index invariant and the refill *)

Lemma nextInt_index_ok (P : Platform) (par : void_ptr)
    (sta : StdinReader_state) (e : Env) :
  index_ok (snd (fst (nextInt P par sta e))).
Proof.
  unfold index_ok. rewrite nextInt_index.
  pose proof (selected_index P sta e). lia.
Qed.

Lemma nextInt_at_end (P : Platform) (par : void_ptr)
    (sta : StdinReader_state) (e : Env) :
  BUFFER_LENGTH <= index sta ->
  nextInt P par sta e =
  (uint32 (Mem.ulong_at P (buffer (fst (refill P sta e))) 0),
   {| buffer := buffer (fst (refill P sta e)); index := 1 |},
   snd (refill P sta e)).
Proof.
  intros H. rewrite nextInt_eq, selected_at_end by assumption.
  reflexivity.
Qed.

Lemma nextInt_below (P : Platform) (par : void_ptr)
    (sta : StdinReader_state) (e : Env) :
  index sta < BUFFER_LENGTH ->
  nextInt P par sta e =
  (uint32 (Mem.ulong_at P (buffer sta) (index sta)),
   {| buffer := buffer sta; index := index sta + 1 |},
   e).
Proof.
  intros H. rewrite nextInt_eq, selected_below by assumption.
  cbn [fst snd]. rewrite (uint32_small (index sta + 1)); [reflexivity|].
  unfold BUFFER_LENGTH in H. change (2 ^ 32) with 4294967296. lia.
Qed.

Lemma refill_replaces_buffer (P : Platform) (sta : StdinReader_state)
    (e : Env) :
  List.length (buffer sta) = sizeof_buffer P ->
  (sizeof_buffer P <= List.length (unread (stdin e)))%nat ->
  buffer (fst (refill P sta e)) = firstn (sizeof_buffer P) (unread (stdin e)).
Proof.
  intros Hbuf Hlen. rewrite refill_eq. cbn [fst buffer].
  unfold sizeof_buffer in *.
  rewrite (Nat.mul_comm (sizeof_unsigned_long P)).
  rewrite skipn_all2, app_nil_r; [reflexivity|].
  rewrite length_firstn. lia.
Qed.

Lemma refill_length (P : Platform) (sta : StdinReader_state) (e : Env) :
  List.length (buffer sta) = sizeof_buffer P ->
  List.length (buffer (fst (refill P sta e))) = sizeof_buffer P.
Proof.
  intros Hbuf. rewrite refill_eq. cbn [fst buffer].
  unfold sizeof_buffer in *.
  rewrite length_app, length_skipn, length_firstn. lia.
Qed.

(** C6.  [index <= BUFFER_LENGTH] holds for the state made by
    [createStdinReader] and is kept by [nextInt] and [nextDouble]; when
    the index equals [BUFFER_LENGTH] the call first refills (one more
    [fread], the buffer overwritten from the stream, the index back to
    [0]) and returns slot [0] of the refilled buffer. *)
Theorem index_invariant_and_refill (P : Platform) :
  (forall (junk : list byte) (p : Proc),
      exists gen p', createStdinReader P junk p = Ret gen p'
                     /\ index_ok (state gen))
  /\ (forall (par : void_ptr) (sta : StdinReader_state) (e : Env),
         index_ok sta ->
         index_ok (snd (fst (nextInt P par sta e)))
         /\ index_ok (snd (fst (nextDouble P par sta e))))
  /\ (forall (par : void_ptr) (sta : StdinReader_state) (e : Env),
         index sta = BUFFER_LENGTH ->
         let filled := fst (refill P sta e) in
         nextInt P par sta e
           = (Mem.ulong_at P (buffer filled) 0 mod 2 ^ 32,
              {| buffer := buffer filled; index := 1 |},
              snd (refill P sta e))
         /\ fst (fst (nextDouble P par sta e))
            = (inject_Z (Z.of_N (Mem.ulong_at P (buffer filled) 0 mod 2 ^ 32))
               / inject_Z 4294967296)%Q
         /\ snd (fst (nextDouble P par sta e))
            = {| buffer := buffer filled; index := 1 |}
         /\ index filled = 0
         /\ reads (stdin (snd (refill P sta e))) = S (reads (stdin e))
         /\ (List.length (buffer sta) = sizeof_buffer P ->
             (sizeof_buffer P <= List.length (unread (stdin e)))%nat ->
             buffer filled = firstn (sizeof_buffer P) (unread (stdin e)))).
Proof.
  split; [|split].
  - intros junk p. exists (created P junk), (after_create p).
    split; [apply createStdinReader_eq|].
    unfold index_ok. cbn. lia.
  - intros par sta e _. split.
    + apply nextInt_index_ok.
    + rewrite nextDouble_eq. cbn [fst snd]. apply nextInt_index_ok.
  - intros par sta e Hend. cbv zeta.
    assert (Hge : BUFFER_LENGTH <= index sta) by lia.
    rewrite nextDouble_eq, (nextInt_at_end P par sta e Hge). cbn [fst snd].
    repeat split.
    apply refill_replaces_buffer.
Qed.

(** A full first block on a 32-bit machine replaces the whole buffer. *)
Lemma index_invariant_and_refill_witness :
  index_ok (snd (fst (nextInt ILP32 NULL (zeroed ILP32)
                        (env_of (Mem.words32 ILP32 (repeat 7 300))))))
  /\ buffer (fst (refill ILP32 (zeroed ILP32)
                    (env_of (Mem.words32 ILP32 (repeat 7 300)))))
     = firstn (sizeof_buffer ILP32) (Mem.words32 ILP32 (repeat 7 300)).
Proof.
  pose proof (index_invariant_and_refill ILP32) as [_ [Hkeep Hend]].
  split.
  - apply Hkeep. vm_compute. discriminate.
  - apply (Hend NULL (zeroed ILP32)
             (env_of (Mem.words32 ILP32 (repeat 7 300)))).
    + reflexivity.
    + vm_compute. reflexivity.
    + vm_compute. lia.
Defined.

(** ** Runs of [nextInt] *)

Lemma nextInts_S (P : Platform) (n : nat) (sta : StdinReader_state)
    (e : Env) :
  nextInts P (S n) sta e =
  (let one := nextInt P NULL sta e in
   let more := nextInts P n (snd (fst one)) (snd one) in
   (fst (fst one) :: fst (fst more), snd (fst more), snd more)).
Proof.
  cbn [nextInts].
  destruct (nextInt P NULL sta e) as [[r sta1] e1]. cbn [fst snd].
  now destruct (nextInts P n sta1 e1) as [[rs sta2] e2].
Qed.

(** While the index stays within the buffer, nothing is read: the calls
    only advance the index. *)
Lemma nextInts_within_block (P : Platform) (n : nat) :
  forall (sta : StdinReader_state) (e : Env),
    index sta + N.of_nat n <= BUFFER_LENGTH ->
    snd (fst (nextInts P n sta e))
      = {| buffer := buffer sta; index := index sta + N.of_nat n |}
    /\ snd (nextInts P n sta e) = e.
Proof.
  induction n as [|n IH]; intros sta e Hfit.
  - cbn. rewrite N.add_0_r. now destruct sta.
  - rewrite nextInts_S. cbv zeta. cbn [fst snd].
    rewrite nextInt_below by lia. cbn [fst snd].
    destruct (IH {| buffer := buffer sta; index := index sta + 1 |} e)
      as [Hsta He]; [cbn [index]; lia|].
    rewrite Hsta, He. cbn [buffer index].
    split; [f_equal; lia | reflexivity].
Qed.

(** Starting at the end of the buffer, the first of [n] calls refills and
    the other calls, up to a full block, do not. *)
Lemma nextInts_from_end (P : Platform) (n : nat) (sta : StdinReader_state)
    (e : Env) :
  BUFFER_LENGTH <= index sta ->
  (1 <= n)%nat -> N.of_nat n <= BUFFER_LENGTH ->
  snd (fst (nextInts P n sta e))
    = {| buffer := buffer (fst (refill P sta e)); index := N.of_nat n |}
  /\ snd (nextInts P n sta e) = snd (refill P sta e).
Proof.
  intros Hend H1 Hn. destruct n as [|n]; [lia|].
  rewrite nextInts_S. cbv zeta. cbn [fst snd].
  rewrite nextInt_at_end by assumption. cbn [fst snd].
  destruct (nextInts_within_block P n
              {| buffer := buffer (fst (refill P sta e)); index := 1 |}
              (snd (refill P sta e))) as [Hsta He]; [cbn [index]; lia|].
  rewrite Hsta, He. cbn [buffer index].
  split; [f_equal; lia | reflexivity].
Qed.

(** ** C strings *)

Lemma code_inj (c d : ascii) : CString.code c = CString.code d -> c = d.
Proof.
  unfold CString.code. intros H. apply N2Z.inj in H.
  rewrite <- (ascii_N_embedding c), <- (ascii_N_embedding d).
  now rewrite H.
Qed.

Lemma code_NUL (c : ascii) : CString.code c = 0%Z -> c = CString.NUL.
Proof. intros H. apply code_inj. exact H. Qed.

Lemma strcmp_refl (s : string) : CString.strcmp s s = 0%Z.
Proof.
  induction s as [|c s IH]; [reflexivity|].
  cbn [CString.strcmp]. now rewrite Ascii.eqb_refl.
Qed.

(** On C strings [strcmp] returns [0] only for equal strings. *)
Lemma strcmp_zero (s : string) :
  forall t : string,
    CString.wf s -> CString.wf t -> CString.strcmp s t = 0%Z -> s = t.
Proof.
  induction s as [|c s IH]; intros [|d t] Hs Ht H; cbn in *.
  - reflexivity.
  - destruct Ht as [Hd _]. exfalso. apply Hd, code_NUL. lia.
  - destruct Hs as [Hc _]. exfalso. apply Hc, code_NUL. lia.
  - destruct Hs as [_ Hs], Ht as [_ Ht].
    destruct (Ascii.eqb_spec c d) as [->|Hcd].
    + f_equal. now apply IH.
    + exfalso. apply Hcd, code_inj. lia.
Qed.

Lemma strcmp_differs (s t : string) :
  CString.wf s -> CString.wf t -> s <> t ->
  (CString.strcmp s t =? 0)%Z = false.
Proof.
  intros Hs Ht Hne. apply Z.eqb_neq. intros H.
  apply Hne. now apply strcmp_zero.
Qed.

Lemma wfb_wf (s : string) : CString.wfb s = true -> CString.wf s.
Proof.
  induction s as [|c s IH]; cbn; [trivial|].
  intros H. apply andb_prop in H as [Hc Hs]. split; [|now apply IH].
  intros ->. discriminate.
Qed.

Lemma format_unknown (s : string) :
  format unknown_fmt [s] = unknown_message s.
Proof. reflexivity. Qed.

Lemma format_usage : format usage_fmt [TU_S; TU_C; TU_B] = usage_message.
Proof. reflexivity. Qed.

(** ** The dispatcher *)

Section Main.
Variable P : Platform.
Variables bS bC bB : unif01_Gen -> Env -> unif01_Gen * Env.
Variable junk : list byte.

Lemma main_without_argument (argv : list string) (p : Proc) :
  (List.length argv < 2)%nat ->
  main P bS bC bB junk argv p =
  Exit 1%Z
    {| env := {| stdin := freopen "rb" (stdin (env p));
                 stdout := (stdout (env p) ++ usage_message)%string |};
       trace := trace p ++ creation_events ++ [EvPrintf usage_message] |}.
Proof.
  intros Hargc. unfold main, bind. rewrite createStdinReader_eq.
  assert (Hlt : (Z.of_nat (List.length argv) <? 2)%Z = true)
    by (apply Z.ltb_lt; lia).
  rewrite Hlt. unfold m_printf, bind, log, on_env, exit, after_create.
  cbn [env trace]. rewrite <- app_assoc. reflexivity.
Qed.

Lemma main_with_argument (argv : list string) (s : string) (p : Proc) :
  nth_error argv 1 = Some s ->
  main P bS bC bB junk argv p =
  (gen' <- (if (CString.strcmp s TU_S =? 0)%Z then
              call_battery SmallCrush bS (created P junk)
            else if (CString.strcmp s TU_C =? 0)%Z then
              call_battery Crush bC (created P junk)
            else if (CString.strcmp s TU_B =? 0)%Z then
              call_battery BigCrush bB (created P junk)
            else
              m_printf unknown_fmt [s] ;;; exit 1%Z) ;;
   deleteStdinReader gen' ;;; ret 0%Z) (after_create p).
Proof.
  intros Harg.
  assert (Hge : (Z.of_nat (List.length argv) <? 2)%Z = false).
  { apply Z.ltb_ge. destruct argv as [|a [|s' rest]]; try discriminate.
    cbn [List.length]. lia. }
  unfold main. unfold bind at 1. rewrite createStdinReader_eq.
  rewrite Hge, Harg. reflexivity.
Qed.

Lemma run_known (b : battery) (p : Proc) :
  (gen' <- call_battery b (run_of bS bC bB b) (created P junk) ;;
   deleteStdinReader gen' ;;; ret 0%Z) (after_create p) =
  Ret 0%Z
    {| env := snd (run_of bS bC bB b (created P junk) (env (after_create p)));
       trace := trace p ++ creation_events ++ [EvBattery b] ++ deletion_events |}.
Proof.
  unfold call_battery, deleteStdinReader, util_Free, log, bind, ret.
  cbn [env trace after_create].
  destruct (run_of bS bC bB b (created P junk) _) as [gen' e'].
  cbn [env trace snd]. rewrite <- !app_assoc. reflexivity.
Qed.

Lemma run_unknown (s : string) (p : Proc) :
  (gen' <- (m_printf unknown_fmt [s] ;;; exit 1%Z) ;;
   deleteStdinReader gen' ;;; ret 0%Z) (after_create p) =
  Exit 1%Z
    {| env := {| stdin := freopen "rb" (stdin (env p));
                 stdout := (stdout (env p) ++ unknown_message s)%string |};
       trace := trace p ++ creation_events ++ [EvPrintf (unknown_message s)] |}.
Proof.
  unfold m_printf, bind, log, on_env, exit, after_create, printf.
  cbn [env trace stdin stdout]. rewrite format_unknown, <- app_assoc.
  reflexivity.
Qed.

Lemma no_battery_in (evs : list event) (text : string) :
  filter is_battery_event (evs ++ creation_events ++ [EvPrintf text])
  = filter is_battery_event evs.
Proof. rewrite filter_app. cbn. apply app_nil_r. Qed.

Lemma no_free_in (evs : list event) (text : string) :
  filter is_free_event (evs ++ creation_events ++ [EvPrintf text])
  = filter is_free_event evs.
Proof. rewrite filter_app. cbn. apply app_nil_r. Qed.

(** C3.  When [argv[1]] is the name of a battery, [main] calls that
    battery's function, and no other, on the generator made by
    [createStdinReader]; when the battery has returned the generator is
    deleted and [main] returns [0]. *)
Theorem known_suite_runs_its_battery (argv : list string) (p : Proc)
    (b : battery) :
  nth_error argv 1 = Some (battery_name b) ->
  exists p',
    main P bS bC bB junk argv p = Ret 0%Z p'
    /\ env p' = snd (run_of bS bC bB b (created P junk) (env (after_create p)))
    /\ trace p'
       = trace p ++ creation_events ++ [EvBattery b] ++ deletion_events
    /\ filter is_battery_event (trace p')
       = filter is_battery_event (trace p) ++ [EvBattery b].
Proof.
  intros Harg. eexists. split; [|split; [|split]].
  - rewrite (main_with_argument argv _ p Harg).
    destruct b; cbn [battery_name];
      [ change (CString.strcmp TU_S TU_S =? 0)%Z with true
      | change (CString.strcmp TU_C TU_S =? 0)%Z with false;
        change (CString.strcmp TU_C TU_C =? 0)%Z with true
      | change (CString.strcmp TU_B TU_S =? 0)%Z with false;
        change (CString.strcmp TU_B TU_C =? 0)%Z with false;
        change (CString.strcmp TU_B TU_B =? 0)%Z with true ];
      cbv iota.
    + apply (run_known SmallCrush).
    + apply (run_known Crush).
    + apply (run_known BigCrush).
  - reflexivity.
  - reflexivity.
  - cbn [trace]. rewrite filter_app. reflexivity.
Qed.

(** C4.  With fewer than two process arguments [main] prints the usage
    line, which names the three suites, on the standard output and exits
    with status [1]; no battery is called and no input is read. *)
Theorem missing_argument_prints_usage (argv : list string) (p : Proc) :
  (List.length argv < 2)%nat ->
  exists p',
    main P bS bC bB junk argv p = Exit 1%Z p'
    /\ stdout (env p') = (stdout (env p) ++ usage_message)%string
    /\ mentions TU_S usage_message = true
    /\ mentions TU_C usage_message = true
    /\ mentions TU_B usage_message = true
    /\ filter is_battery_event (trace p') = filter is_battery_event (trace p)
    /\ unread (stdin (env p')) = unread (stdin (env p))
    /\ reads (stdin (env p')) = reads (stdin (env p)).
Proof.
  intros Hargc. eexists.
  split; [apply (main_without_argument argv p Hargc)|].
  cbn [env trace stdin stdout unread reads freopen].
  repeat split. apply no_battery_in.
Qed.

(** C5.  When [argv[1]] is a string other than the three suite names,
    differences of case included, [main] prints the "unknown
    specification" line, which quotes the argument as given, and exits
    with status [1]; no battery is called and no input is read. *)
Theorem unknown_suite_is_rejected (argv : list string) (s : string)
    (p : Proc) :
  nth_error argv 1 = Some s ->
  CString.wf s ->
  s <> TU_S -> s <> TU_C -> s <> TU_B ->
  exists p',
    main P bS bC bB junk argv p = Exit 1%Z p'
    /\ stdout (env p') = (stdout (env p) ++ unknown_message s)%string
    /\ unknown_message s
       = ("[ERROR] Unknown specification: '" ++ s ++ "'"
          ++ CString.newline)%string
    /\ filter is_battery_event (trace p') = filter is_battery_event (trace p)
    /\ unread (stdin (env p')) = unread (stdin (env p))
    /\ reads (stdin (env p')) = reads (stdin (env p)).
Proof.
  intros Harg Hwf HS HC HB. eexists. split.
  - rewrite (main_with_argument argv s p Harg).
    rewrite !strcmp_differs by (assumption || (cbn; intuition discriminate)).
    apply run_unknown.
  - cbn [env trace stdin stdout unread reads freopen].
    repeat split. apply no_battery_in.
Qed.

(** C10.  Whatever the arguments, [main] first creates the generator
    (state, generator and name blocks allocated, [stdin] reopened in
    mode ["rb"]) and only then looks at them.  The two exits with status
    [1] free nothing; the blocks are freed only on the path that ran a
    battery and returns [0]. *)
Theorem creation_first_deletion_on_success_only (argv : list string)
    (p : Proc) :
  match main P bS bC bB junk argv p with
  | Ret status p' =>
      status = 0%Z
      /\ exists b : battery,
          trace p'
          = trace p ++ creation_events ++ [EvBattery b] ++ deletion_events
  | Exit status p' =>
      status = 1%Z
      /\ (exists text : string,
             trace p' = trace p ++ creation_events ++ [EvPrintf text]
             /\ (text = usage_message
                 \/ exists s, nth_error argv 1 = Some s
                              /\ text = unknown_message s))
      /\ filter is_free_event (trace p') = filter is_free_event (trace p)
      /\ binary (stdin (env p')) = true
  | Undefined => False
  end.
Proof.
  destruct (nth_error argv 1) as [s|] eqn:Harg.
  - rewrite (main_with_argument argv s p Harg).
    destruct (CString.strcmp s TU_S =? 0)%Z;
      [|destruct (CString.strcmp s TU_C =? 0)%Z;
        [|destruct (CString.strcmp s TU_B =? 0)%Z]].
    + rewrite (run_known SmallCrush). split; [|exists SmallCrush]; reflexivity.
    + rewrite (run_known Crush). split; [|exists Crush]; reflexivity.
    + rewrite (run_known BigCrush). split; [|exists BigCrush]; reflexivity.
    + rewrite run_unknown. cbn [env trace stdin binary freopen].
      split; [reflexivity|].
      split; [exists (unknown_message s); split; [reflexivity|]; right;
              exists s; split; reflexivity|].
      split; [apply no_free_in | reflexivity].
  - rewrite main_without_argument.
    + cbn [env trace stdin binary freopen].
      split; [reflexivity|].
      split; [exists usage_message; split; [reflexivity | now left]|].
      split; [apply no_free_in | reflexivity].
    + apply nth_error_None in Harg. lia.
Qed.

End Main.

(** ** Stream order *)

Lemma to_N_byte_of_N (n : N) : Byte.to_N (Mem.byte_of_N n) = n mod 256.
Proof.
  unfold Mem.byte_of_N.
  destruct (Byte.of_N (n mod 256)) as [b|] eqn:E.
  - now apply Byte.to_of_N.
  - apply Byte.of_N_None_iff in E.
    pose proof (N.mod_upper_bound n 256). lia.
Qed.

Lemma le_value_le_bytes (k : nat) :
  forall n : N, Mem.le_value (Mem.le_bytes k n) = n mod 256 ^ N.of_nat k.
Proof.
  induction k as [|k IH]; intros n.
  - cbn. now rewrite N.mod_1_r.
  - cbn [Mem.le_bytes Mem.le_value].
    rewrite IH, to_N_byte_of_N, Nat2N.inj_succ, N.pow_succ_r'.
    now rewrite N.Div0.mod_mul_r.
Qed.

Lemma length_le_bytes (k : nat) :
  forall n : N, List.length (Mem.le_bytes k n) = k.
Proof. induction k as [|k IH]; intros n; cbn; [|rewrite IH]; reflexivity. Qed.

Lemma length_store (P : Platform) (k : nat) (n : N) :
  List.length (Mem.store P k n) = k.
Proof.
  unfold Mem.store. destruct (big_endian P);
    [rewrite length_rev|]; apply length_le_bytes.
Qed.

Lemma load_store (P : Platform) (k : nat) (n : N) :
  Mem.load P (Mem.store P k n) = n mod 256 ^ N.of_nat k.
Proof.
  unfold Mem.load, Mem.store. destruct (big_endian P);
    [rewrite rev_involutive|]; apply le_value_le_bytes.
Qed.

Lemma firstn_plus {A : Type} (n m : nat) :
  forall l : list A, firstn (n + m) l = firstn n l ++ firstn m (skipn n l).
Proof.
  induction n as [|n IH]; intros [|x l]; cbn; try reflexivity.
  - now rewrite firstn_nil.
  - now rewrite IH.
Qed.

Lemma Forall_skipn {A : Type} (Q : A -> Prop) (n : nat) :
  forall l : list A, Forall Q l -> Forall Q (skipn n l).
Proof.
  induction n as [|n IH]; intros [|x l] H; cbn; try assumption.
  apply IH. now inversion H.
Qed.

Lemma Forall_firstn {A : Type} (Q : A -> Prop) (n : nat) :
  forall l : list A, Forall Q l -> Forall Q (firstn n l).
Proof.
  induction n as [|n IH]; intros [|x l] H; cbn; try constructor.
  - now inversion H.
  - apply IH. now inversion H.
Qed.

(** The bytes of slot [j] of a stream of 32-bit words are the bytes of
    its [j]-th word. *)
Lemma word_of_stream (P : Platform) (j : nat) :
  forall ws : list N,
    (j < List.length ws)%nat ->
    firstn 4 (skipn (j * 4) (Mem.words32 P ws)) = Mem.store P 4 (nth j ws 0).
Proof.
  induction j as [|j IH]; intros [|w ws] Hj; cbn [List.length] in Hj;
    try lia; unfold Mem.words32; cbn [flat_map nth].
  - change (0 * 4)%nat with 0%nat. cbn [skipn].
    rewrite firstn_app, length_store, firstn_all2
      by (rewrite length_store; lia).
    cbn. apply app_nil_r.
  - rewrite skipn_app, length_store, skipn_all2
      by (rewrite length_store; lia).
    replace (S j * 4 - 4)%nat with (j * 4)%nat by lia.
    cbn [app]. apply IH. lia.
Qed.

Lemma skipn_words32 (P : Platform) (j : nat) :
  forall ws : list N,
    skipn (j * 4) (Mem.words32 P ws) = Mem.words32 P (skipn j ws).
Proof.
  induction j as [|j IH]; intros [|w ws]; try reflexivity.
  unfold Mem.words32. cbn [flat_map skipn].
  rewrite skipn_app, length_store, skipn_all2
    by (rewrite length_store; lia).
  replace (S j * 4 - 4)%nat with (j * 4)%nat by lia.
  cbn [app]. apply IH.
Qed.

Lemma length_words32 (P : Platform) (ws : list N) :
  List.length (Mem.words32 P ws) = (List.length ws * 4)%nat.
Proof.
  unfold Mem.words32. apply flat_map_constant_length.
  intros w _. apply length_store.
Qed.

Lemma nextInts_plus (P : Platform) (a b : nat) :
  forall (sta : StdinReader_state) (e : Env),
    nextInts P (a + b) sta e =
    (let front := nextInts P a sta e in
     let back := nextInts P b (snd (fst front)) (snd front) in
     (fst (fst front) ++ fst (fst back), snd (fst back), snd back)).
Proof.
  induction a as [|a IH]; intros sta e.
  - cbn. now destruct (nextInts P b sta e) as [[rs sta'] e'].
  - cbn [Nat.add]. rewrite !nextInts_S. cbv zeta. rewrite IH.
    reflexivity.
Qed.

(** The values of a run that stays within the buffer are the elements
    under the index, narrowed. *)
Lemma block_values (P : Platform) (n : nat) :
  forall (sta : StdinReader_state) (e : Env) (vs : list N),
    List.length vs = n ->
    index sta + N.of_nat n <= BUFFER_LENGTH ->
    Forall (fun v => v < 2 ^ 32) vs ->
    (forall k : nat,
        (k < n)%nat ->
        Mem.ulong_at P (buffer sta) (index sta + N.of_nat k) = nth k vs 0) ->
    fst (fst (nextInts P n sta e)) = vs.
Proof.
  induction n as [|n IH]; intros sta e [|v vs] Hlen Hfit Hvs Hslots;
    try discriminate.
  - reflexivity.
  - rewrite nextInts_S. cbv zeta. cbn [fst snd].
    rewrite nextInt_below by lia. cbn [fst snd].
    inversion Hvs as [|? ? Hv Hvs']; subst.
    f_equal.
    + pose proof (Hslots 0%nat ltac:(lia)) as H0.
      cbn [nth] in H0. rewrite N.add_0_r in H0.
      rewrite H0. now apply uint32_small.
    + apply IH; cbn [buffer index].
      * now injection Hlen.
      * lia.
      * assumption.
      * intros k Hk. pose proof (Hslots (S k) ltac:(lia)) as HS.
        cbn [nth] in HS. rewrite <- HS. f_equal. lia.
Qed.

Section StreamOrder.
Variable P : Platform.
Hypothesis long_is_32_bits : sizeof_unsigned_long P = 4%nat.

Lemma refilled_slot (sta : StdinReader_state) (e : Env) (ws : list N)
    (j : nat) :
  unread (stdin e) = Mem.words32 P ws ->
  Forall (fun w => w < 2 ^ 32) ws ->
  (j < N.to_nat BUFFER_LENGTH)%nat -> (j < List.length ws)%nat ->
  Mem.ulong_at P (buffer (fst (refill P sta e))) (N.of_nat j) = nth j ws 0.
Proof.
  intros Hin Hws Hj Hlen.
  rewrite refill_slot
    by (rewrite ?Hin, ?length_words32, ?long_is_32_bits; lia).
  rewrite long_is_32_bits, Hin, word_of_stream, load_store by assumption.
  apply N.mod_small. apply (proj1 (Forall_nth _ ws) Hws). assumption.
Qed.

Lemma refilled_stream (sta : StdinReader_state) (e : Env) (ws : list N) :
  unread (stdin e) = Mem.words32 P ws ->
  unread (stdin (snd (refill P sta e)))
  = Mem.words32 P (skipn (N.to_nat BUFFER_LENGTH) ws).
Proof.
  intros Hin. rewrite refill_eq. cbn [snd stdin unread].
  rewrite Hin, long_is_32_bits, Nat.mul_comm. apply skipn_words32.
Qed.

(** Up to one block after a refill point: the words come out in order. *)
Lemma first_block_in_order (n : nat) (sta : StdinReader_state) (e : Env)
    (ws : list N) :
  BUFFER_LENGTH <= index sta ->
  unread (stdin e) = Mem.words32 P ws ->
  Forall (fun w => w < 2 ^ 32) ws ->
  N.of_nat n <= BUFFER_LENGTH -> (n <= List.length ws)%nat ->
  fst (fst (nextInts P n sta e)) = firstn n ws.
Proof.
  intros Hend Hin Hws Hn Hlen.
  destruct n as [|n]; [reflexivity|].
  destruct ws as [|w ws]; [cbn in Hlen; lia|].
  rewrite nextInts_S. cbv zeta. cbn [fst snd].
  rewrite nextInt_at_end by assumption. cbn [fst snd firstn].
  f_equal.
  - pose proof (refilled_slot sta e (w :: ws) 0 Hin Hws) as H0.
    change (N.of_nat 0) with 0 in H0.
    rewrite H0 by (cbn [List.length]; unfold BUFFER_LENGTH; lia).
    apply uint32_small. now inversion Hws.
  - cbn [List.length] in Hlen.
    apply block_values; cbn [buffer index].
    + rewrite length_firstn. lia.
    + lia.
    + apply Forall_firstn. now inversion Hws.
    + intros k Hk.
      replace (1 + N.of_nat k) with (N.of_nat (S k)) by lia.
      rewrite (refilled_slot sta e (w :: ws) (S k) Hin Hws)
        by (cbn [List.length]; unfold BUFFER_LENGTH in *; lia).
      cbn [nth]. rewrite nth_firstn.
      destruct (Nat.ltb_spec k n); [reflexivity | lia].
Qed.

(** When [unsigned long] is four bytes wide, [nextInt] hands out the
    32-bit words of the stream in order, across any number of refills. *)
Lemma stream_order_with_32_bit_long (n : nat) :
  forall (sta : StdinReader_state) (e : Env) (ws : list N),
    BUFFER_LENGTH <= index sta ->
    unread (stdin e) = Mem.words32 P ws ->
    Forall (fun w => w < 2 ^ 32) ws ->
    (n <= List.length ws)%nat ->
    fst (fst (nextInts P n sta e)) = firstn n ws.
Proof.
  induction n as [n IH] using lt_wf_ind. intros sta e ws Hend Hin Hws Hlen.
  destruct (Nat.le_gt_cases n (N.to_nat BUFFER_LENGTH)) as [Hsmall|Hbig].
  - apply first_block_in_order; try assumption. lia.
  - replace n with (N.to_nat BUFFER_LENGTH + (n - N.to_nat BUFFER_LENGTH))%nat
      by lia.
    rewrite nextInts_plus, firstn_plus. cbv zeta. cbn [fst snd].
    assert (H256 : (1 <= N.to_nat BUFFER_LENGTH)%nat)
      by (unfold BUFFER_LENGTH; lia).
    assert (HN : N.of_nat (N.to_nat BUFFER_LENGTH) <= BUFFER_LENGTH) by lia.
    destruct (nextInts_from_end P _ sta e Hend H256 HN) as [Hsta He].
    f_equal.
    + apply first_block_in_order; try assumption. lia.
    + apply IH.
      * unfold BUFFER_LENGTH in *. lia.
      * rewrite Hsta. cbn [index]. lia.
      * rewrite He. now apply refilled_stream.
      * now apply Forall_skipn.
      * rewrite length_skipn. lia.
Qed.

End StreamOrder.

(** C1.  Specified: repeated calls of [nextInt] return the 32-bit words
    of the stream one after the other, wherever the refills fall.  The
    code does not do so on a machine whose [unsigned long] is eight
    bytes wide: every buffer slot takes two words of the stream and the
    narrowing keeps one, so of the words [1 .. 12] the first four calls
    return [1; 3; 5; 7] (little endian) or [2; 4; 6; 8] (big endian),
    not [1; 2; 3; 4]. *)
Theorem nextInt_drops_alternate_words_on_LP64 :
  let input := Mem.words32 LP64 words12 in
  let run := nextInts LP64 4 (state (created LP64 [])) (env_of input) in
  let input_be := Mem.words32 LP64_BE words12 in
  let run_be :=
    nextInts LP64_BE 4 (state (created LP64_BE [])) (env_of input_be) in
  fst (fst run) = [1; 3; 5; 7]
  /\ fst (fst run) <> firstn 4 words12
  /\ fst (fst run_be) = [2; 4; 6; 8]
  /\ fst (fst run_be) <> firstn 4 words12.
Proof.
  cbv zeta. repeat split.
  - vm_compute. discriminate.
  - vm_compute. discriminate.
Qed.

(** ** Runs of the program *)

Lemma known_suite_runs_its_battery_witness :
  exists p',
    main LP64 (sample_battery LP64 1) (sample_battery LP64 2)
         (sample_battery LP64 3) [] (sample_argv "Crush")
         (start (Mem.words32 LP64 words12)) = Ret 0%Z p'
    /\ filter is_battery_event (trace p') = [EvBattery Crush].
Proof.
  destruct (known_suite_runs_its_battery LP64
              (sample_battery LP64 1) (sample_battery LP64 2)
              (sample_battery LP64 3) [] (sample_argv "Crush")
              (start (Mem.words32 LP64 words12)) Crush)
    as [p' [Hmain [_ [_ Hbat]]]].
  - reflexivity.
  - exists p'. split; [exact Hmain | exact Hbat].
Defined.

Lemma missing_argument_prints_usage_witness :
  exists p',
    main LP64 (sample_battery LP64 1) (sample_battery LP64 2)
         (sample_battery LP64 3) [] ["stdin2testu01"%string]
         (start (Mem.words32 LP64 words12)) = Exit 1%Z p'
    /\ stdout (env p') = usage_message.
Proof.
  destruct (missing_argument_prints_usage LP64
              (sample_battery LP64 1) (sample_battery LP64 2)
              (sample_battery LP64 3) [] ["stdin2testu01"%string]
              (start (Mem.words32 LP64 words12)))
    as [p' [Hmain [Hout _]]].
  - cbn. lia.
  - exists p'. split; [exact Hmain | exact Hout].
Defined.

Lemma unknown_suite_is_rejected_witness :
  exists p',
    main LP64 (sample_battery LP64 1) (sample_battery LP64 2)
         (sample_battery LP64 3) [] (sample_argv "bigcrush")
         (start (Mem.words32 LP64 words12)) = Exit 1%Z p'
    /\ stdout (env p') = unknown_message "bigcrush".
Proof.
  destruct (unknown_suite_is_rejected LP64
              (sample_battery LP64 1) (sample_battery LP64 2)
              (sample_battery LP64 3) [] (sample_argv "bigcrush")
              "bigcrush" (start (Mem.words32 LP64 words12)))
    as [p' [Hmain [Hout _]]].
  - reflexivity.
  - apply wfb_wf. reflexivity.
  - discriminate.
  - discriminate.
  - discriminate.
  - exists p'. split; [exact Hmain | exact Hout].
Defined.

(** On the 32-bit data model the reader made by [createStdinReader]
    returns the words of the stream in order, for every stream. *)
Corollary stream_order_on_ILP32 (junk : list byte) (ws : list N) (n : nat) :
  Forall (fun w => w < 2 ^ 32) ws ->
  (n <= List.length ws)%nat ->
  fst (fst (nextInts ILP32 n (state (created ILP32 junk))
              (env_of (Mem.words32 ILP32 ws))))
  = firstn n ws.
Proof.
  intros Hws Hn.
  apply stream_order_with_32_bit_long; try assumption; reflexivity.
Qed.


(** * Further properties of the reader *)

(** ** Runs described slot by slot *)

Lemma seq_from (a m : nat) :
  forall s : nat, map (fun k => (a + k)%nat) (seq s m) = seq (a + s) m.
Proof.
  induction m as [|m IH]; intros s; cbn [seq map]; [reflexivity|].
  f_equal. rewrite IH. f_equal. lia.
Qed.

Lemma block_slots (P : Platform) (n : nat) :
  forall (sta : StdinReader_state) (e : Env),
    index sta + N.of_nat n <= BUFFER_LENGTH ->
    fst (fst (nextInts P n sta e))
    = map (fun k => slot32 P (buffer sta) (N.to_nat (index sta) + k))
          (seq 0 n).
Proof.
  induction n as [|n IH]; intros sta e Hfit; [reflexivity|].
  rewrite nextInts_S. cbv zeta. cbn [fst snd].
  rewrite nextInt_below by lia. cbn [fst snd seq map].
  f_equal.
  - unfold slot32. do 2 f_equal. lia.
  - rewrite IH by (cbn [index]; lia). cbn [buffer index].
    rewrite <- seq_shift, map_map. apply map_ext. intros k.
    f_equal. lia.
Qed.

Lemma run_from_end_slots (P : Platform) (n : nat) (sta : StdinReader_state)
    (e : Env) :
  BUFFER_LENGTH <= index sta -> N.of_nat n <= BUFFER_LENGTH ->
  fst (fst (nextInts P n sta e))
  = map (slot32 P (buffer (fst (refill P sta e)))) (seq 0 n).
Proof.
  intros Hend Hn. destruct n as [|n]; [reflexivity|].
  rewrite nextInts_S. cbv zeta. cbn [fst snd].
  rewrite nextInt_at_end by assumption. cbn [fst snd seq map].
  f_equal. rewrite block_slots by (cbn [index]; lia). cbn [buffer index].
  rewrite <- seq_shift, map_map. apply map_ext. intros k.
  f_equal.
Qed.

Lemma stream_item_skipn (P : Platform) (stream : list byte) (a k : nat) :
  stream_item P (skipn (a * sizeof_unsigned_long P) stream) k
  = stream_item P stream (a + k).
Proof.
  unfold stream_item. rewrite skipn_skipn. do 4 f_equal. lia.
Qed.

Lemma refill_slot32 (P : Platform) (sta : StdinReader_state) (e : Env)
    (k : nat) :
  (k < N.to_nat BUFFER_LENGTH)%nat ->
  ((k + 1) * sizeof_unsigned_long P <= List.length (unread (stdin e)))%nat ->
  slot32 P (buffer (fst (refill P sta e))) k
  = stream_item P (unread (stdin e)) k.
Proof.
  intros Hk Hlen. unfold slot32, stream_item.
  now rewrite refill_slot.
Qed.

Lemma refill_unread (P : Platform) (sta : StdinReader_state) (e : Env) :
  unread (stdin (snd (refill P sta e)))
  = skipn (N.to_nat BUFFER_LENGTH * sizeof_unsigned_long P)
          (unread (stdin e)).
Proof.
  rewrite refill_eq. cbn [snd stdin unread]. f_equal. apply Nat.mul_comm.
Qed.

Lemma items_in_order (P : Platform) (n : nat) :
  forall (sta : StdinReader_state) (e : Env),
    BUFFER_LENGTH <= index sta ->
    (n * sizeof_unsigned_long P <= List.length (unread (stdin e)))%nat ->
    fst (fst (nextInts P n sta e))
    = map (stream_item P (unread (stdin e))) (seq 0 n).
Proof.
  induction n as [n IH] using lt_wf_ind. intros sta e Hend Hlen.
  set (B := N.to_nat BUFFER_LENGTH).
  assert (HB : B = 256%nat) by reflexivity.
  destruct (Nat.le_gt_cases n B) as [Hsmall|Hbig].
  - rewrite run_from_end_slots by (assumption || lia).
    apply map_ext_in. intros k Hk. apply in_seq in Hk.
    apply refill_slot32; [fold B; lia | nia].
  - replace n with (B + (n - B))%nat by lia.
    rewrite nextInts_plus, seq_app, map_app. cbv zeta. cbn [fst snd].
    destruct (nextInts_from_end P B sta e Hend) as [Hsta He]; [lia | lia |].
    f_equal.
    + rewrite run_from_end_slots by (assumption || lia).
      apply map_ext_in. intros k Hk. apply in_seq in Hk.
      apply refill_slot32; [fold B; lia | nia].
    + rewrite IH.
      * rewrite He, refill_unread. fold B.
        assert (Hseq : seq (0 + B) (n - B)
                       = map (fun k => (B + k)%nat) (seq 0 (n - B)))
          by (rewrite seq_from; f_equal; lia).
        rewrite Hseq, map_map.
        apply map_ext. intros k. apply stream_item_skipn.
      * lia.
      * rewrite Hsta. cbn [index]. lia.
      * rewrite He, refill_unread, length_skipn. fold B. nia.
Qed.

(** X1.  From a refill point on, the values [nextInt] returns are the
    successive items of [sizeof (unsigned long)] bytes of the stream,
    each narrowed to 32 bits, in order and across refills, as long as
    the stream holds them. *)
Theorem nextInt_returns_successive_items (P : Platform) (n : nat)
    (sta : StdinReader_state) (e : Env) :
  BUFFER_LENGTH <= index sta ->
  (n * sizeof_unsigned_long P <= List.length (unread (stdin e)))%nat ->
  fst (fst (nextInts P n sta e))
  = map (stream_item P (unread (stdin e))) (seq 0 n)
  /\ forall k : nat,
       (k < n)%nat ->
       nth k (fst (fst (nextInts P n sta e))) 0
       = Mem.load P (firstn (sizeof_unsigned_long P)
                            (skipn (k * sizeof_unsigned_long P)
                                   (unread (stdin e))))
         mod 2 ^ 32.
Proof.
  intros Hend Hlen.
  rewrite (items_in_order P n sta e Hend Hlen). split; [reflexivity|].
  intros k Hk.
  rewrite (nth_indep _ 0 (stream_item P (unread (stdin e)) 0))
    by (rewrite length_map, length_seq; exact Hk).
  rewrite map_nth, seq_nth by exact Hk. reflexivity.
Qed.

(** A stream of six words on a 64-bit machine: three items. *)
Lemma nextInt_returns_successive_items_witness :
  fst (fst (nextInts LP64 3 (zeroed LP64)
              (env_of (Mem.words32 LP64 words12))))
  = map (stream_item LP64 (Mem.words32 LP64 words12)) (seq 0 3).
Proof.
  apply (nextInt_returns_successive_items LP64 3 (zeroed LP64)
           (env_of (Mem.words32 LP64 words12))).
  - vm_compute. discriminate.
  - vm_compute. lia.
Defined.

(** ** Streams of 32-bit words *)

(** X2.  Where [unsigned long] is four bytes wide, the calls of [nextInt]
    from a refill point on return the 32-bit words of the stream, one
    after the other, for every stream and across refills. *)
Theorem words_in_order_when_long_is_4_bytes (P : Platform) (n : nat)
    (sta : StdinReader_state) (e : Env) (ws : list N) :
  sizeof_unsigned_long P = 4%nat ->
  BUFFER_LENGTH <= index sta ->
  unread (stdin e) = Mem.words32 P ws ->
  Forall (fun w => w < 2 ^ 32) ws ->
  (n <= List.length ws)%nat ->
  fst (fst (nextInts P n sta e)) = firstn n ws.
Proof.
  intros H4 Hend Hin Hws Hn.
  now apply stream_order_with_32_bit_long.
Qed.

Lemma words_in_order_when_long_is_4_bytes_witness :
  fst (fst (nextInts ILP32 5 (zeroed ILP32)
              (env_of (Mem.words32 ILP32 words12))))
  = firstn 5 words12.
Proof.
  apply (words_in_order_when_long_is_4_bytes ILP32 5 (zeroed ILP32)
           (env_of (Mem.words32 ILP32 words12)) words12).
  - reflexivity.
  - vm_compute. discriminate.
  - reflexivity.
  - unfold words12. repeat constructor.
  - vm_compute. lia.
Defined.

Lemma skipn_nth {A : Type} (d : A) (m : nat) :
  forall l : list A,
    (m < List.length l)%nat -> skipn m l = nth m l d :: skipn (S m) l.
Proof.
  induction m as [|m IH]; intros [|x l] Hm; cbn [List.length] in Hm;
    try lia.
  - reflexivity.
  - cbn [skipn nth]. rewrite IH by lia. reflexivity.
Qed.

Lemma le_value_app (xs ys : list byte) :
  Mem.le_value (xs ++ ys)
  = Mem.le_value xs + 256 ^ N.of_nat (List.length xs) * Mem.le_value ys.
Proof.
  induction xs as [|x xs IH].
  - cbn [app Mem.le_value List.length]. change (N.of_nat 0) with 0.
    rewrite N.pow_0_r. lia.
  - cbn [app Mem.le_value List.length].
    rewrite IH, Nat2N.inj_succ, N.pow_succ_r'. lia.
Qed.

(** An eight-byte item is made of two consecutive words of the stream. *)
Lemma pair_of_stream (P : Platform) (j : nat) (ws : list N) :
  (2 * j + 1 < List.length ws)%nat ->
  firstn 8 (skipn (j * 8) (Mem.words32 P ws))
  = Mem.store P 4 (nth (2 * j) ws 0) ++ Mem.store P 4 (nth (2 * j + 1) ws 0).
Proof.
  intros Hj.
  replace (j * 8)%nat with ((2 * j) * 4)%nat by lia.
  rewrite skipn_words32.
  rewrite (skipn_nth 0 (2 * j)) by lia.
  rewrite (skipn_nth 0 (S (2 * j))) by lia.
  replace (S (2 * j)) with (2 * j + 1)%nat by lia.
  unfold Mem.words32. cbn [flat_map]. rewrite app_assoc.
  rewrite firstn_app, length_app, !length_store.
  change (8 - (4 + 4))%nat with 0%nat.
  rewrite firstn_O, app_nil_r. apply firstn_all2.
  rewrite length_app, !length_store. lia.
Qed.

Lemma load_pair (P : Platform) (a b : N) :
  a < 2 ^ 32 -> b < 2 ^ 32 ->
  uint32 (Mem.load P (Mem.store P 4 a ++ Mem.store P 4 b))
  = if big_endian P then b else a.
Proof.
  intros Ha Hb. unfold Mem.load, Mem.store, uint32.
  destruct (big_endian P).
  - rewrite rev_app_distr, !rev_involutive, le_value_app, length_le_bytes,
      !le_value_le_bytes.
    change (256 ^ N.of_nat 4) with (2 ^ 32).
    rewrite (N.mod_small a), (N.mod_small b) by assumption.
    rewrite (N.mul_comm (2 ^ 32)), N.Div0.mod_add.
    now apply N.mod_small.
  - rewrite le_value_app, length_le_bytes, !le_value_le_bytes.
    change (256 ^ N.of_nat 4) with (2 ^ 32).
    rewrite (N.mod_small a), (N.mod_small b) by assumption.
    rewrite (N.mul_comm (2 ^ 32)), N.Div0.mod_add.
    now apply N.mod_small.
Qed.

(** X3.  Where [unsigned long] is eight bytes wide, the [j]-th call of
    [nextInt] from a refill point on returns word [2 j] of a stream of
    32-bit words on a little-endian machine and word [2 j + 1] on a
    big-endian one: one word of every two is never returned. *)
Theorem one_word_of_two_when_long_is_8_bytes (P : Platform) (n : nat)
    (sta : StdinReader_state) (e : Env) (ws : list N) :
  sizeof_unsigned_long P = 8%nat ->
  BUFFER_LENGTH <= index sta ->
  unread (stdin e) = Mem.words32 P ws ->
  Forall (fun w => w < 2 ^ 32) ws ->
  (2 * n <= List.length ws)%nat ->
  fst (fst (nextInts P n sta e))
  = map (fun j => nth (2 * j + if big_endian P then 1 else 0)%nat ws 0)
        (seq 0 n).
Proof.
  intros H8 Hend Hin Hws Hn.
  rewrite items_in_order
    by (assumption || (rewrite Hin, length_words32, H8; lia)).
  apply map_ext_in. intros j Hj. apply in_seq in Hj.
  unfold stream_item. rewrite H8, Hin, pair_of_stream by lia.
  pose proof (proj1 (Forall_nth _ ws) Hws) as Hnth.
  rewrite load_pair by (apply Hnth; lia).
  destruct (big_endian P); [reflexivity | f_equal; lia].
Qed.

Lemma one_word_of_two_when_long_is_8_bytes_witness :
  fst (fst (nextInts LP64_BE 6 (zeroed LP64_BE)
              (env_of (Mem.words32 LP64_BE words12))))
  = [2; 4; 6; 8; 10; 12].
Proof.
  apply (one_word_of_two_when_long_is_8_bytes LP64_BE 6 (zeroed LP64_BE)
           (env_of (Mem.words32 LP64_BE words12)) words12).
  - reflexivity.
  - vm_compute. discriminate.
  - reflexivity.
  - unfold words12. repeat constructor.
  - vm_compute. lia.
Defined.

(** ** Reads from the stream *)

Lemma blocks_for_one (n : nat) :
  (1 <= n)%nat -> N.of_nat n <= BUFFER_LENGTH -> blocks_for n = 1%nat.
Proof.
  intros H1 Hn. unfold blocks_for.
  change (N.to_nat BUFFER_LENGTH) with 256%nat.
  unfold BUFFER_LENGTH in Hn.
  symmetry. apply (Nat.div_unique _ _ _ (n - 1)); lia.
Qed.

Lemma blocks_for_more (n : nat) :
  (N.to_nat BUFFER_LENGTH < n)%nat ->
  blocks_for n = S (blocks_for (n - N.to_nat BUFFER_LENGTH)).
Proof.
  unfold blocks_for. change (N.to_nat BUFFER_LENGTH) with 256%nat.
  intros Hn.
  replace (n + (256 - 1))%nat with ((n - 256 + (256 - 1)) + 1 * 256)%nat
    by lia.
  rewrite Nat.div_add by lia. lia.
Qed.

Lemma env_after_calls (P : Platform) (n : nat) :
  forall (sta : StdinReader_state) (e : Env),
    BUFFER_LENGTH <= index sta ->
    snd (nextInts P n sta e)
    = {| stdin := {| unread := skipn (blocks_for n * sizeof_buffer P)
                                     (unread (stdin e));
                     binary := binary (stdin e);
                     reads := reads (stdin e) + blocks_for n |};
         stdout := stdout e |}.
Proof.
  induction n as [n IH] using lt_wf_ind. intros sta e Hend.
  set (B := N.to_nat BUFFER_LENGTH).
  assert (HB : B = 256%nat) by reflexivity.
  destruct n as [|n].
  - cbn. rewrite Nat.add_0_r. now destruct e as [[u b r] out].
  - destruct (Nat.le_gt_cases (S n) B) as [Hsmall|Hbig].
    + destruct (nextInts_from_end P (S n) sta e Hend) as [_ He];
        [lia | lia |].
      rewrite He, refill_eq, blocks_for_one by lia. cbn [snd].
      unfold sizeof_buffer. fold B.
      do 2 f_equal; [f_equal; lia | lia].
    + replace (S n) with (B + (S n - B))%nat by lia.
      rewrite nextInts_plus. cbv zeta. cbn [snd].
      destruct (nextInts_from_end P B sta e Hend) as [Hsta He];
        [lia | lia |].
      rewrite IH by (lia || (rewrite Hsta; cbn [index]; lia)).
      rewrite He, refill_eq. cbn [snd stdin stdout unread binary reads].
      replace (B + (S n - B))%nat with (S n) by lia.
      rewrite (blocks_for_more (S n)) by (fold B; lia). fold B.
      rewrite skipn_skipn. unfold sizeof_buffer. fold B.
      do 2 f_equal; [f_equal; lia | lia].
Qed.

(** X4.  [n] calls of [nextInt] from a refill point make one [fread] for
    every started block of [BUFFER_LENGTH] values, each taking
    [BUFFER_LENGTH * sizeof (unsigned long)] bytes off the stream (or
    what is left of it); the calls write nothing to the standard output
    and leave the mode of the stream alone. *)
Theorem calls_read_whole_blocks (P : Platform) (n : nat)
    (sta : StdinReader_state) (e : Env) :
  BUFFER_LENGTH <= index sta ->
  let e' := snd (nextInts P n sta e) in
  reads (stdin e') = (reads (stdin e) + blocks_for n)%nat
  /\ unread (stdin e')
     = skipn (blocks_for n * sizeof_buffer P) (unread (stdin e))
  /\ binary (stdin e') = binary (stdin e)
  /\ stdout e' = stdout e.
Proof.
  intros Hend. cbv zeta. rewrite (env_after_calls P n sta e Hend).
  repeat split.
Qed.

(** Three hundred calls on a 64-bit machine have read two blocks. *)
Lemma calls_read_whole_blocks_witness :
  reads (stdin (snd (nextInts LP64 300 (zeroed LP64)
                       (env_of (Mem.words32 LP64 words12)))))
  = 2%nat.
Proof.
  apply (calls_read_whole_blocks LP64 300 (zeroed LP64)
           (env_of (Mem.words32 LP64 words12))).
  vm_compute. discriminate.
Defined.

(** ** Staying inside the buffer *)

Lemma created_buffer_length (P : Platform) (junk : list byte) :
  List.length (buffer (state (created P junk))) = sizeof_buffer P.
Proof.
  cbn [created state buffer].
  rewrite length_firstn, length_app, repeat_length. lia.
Qed.

Lemma selected_length (P : Platform) (sta : StdinReader_state) (e : Env) :
  List.length (buffer sta) = sizeof_buffer P ->
  List.length (buffer (fst (selected P sta e))) = sizeof_buffer P.
Proof.
  intros Hlen. unfold selected.
  destruct (BUFFER_LENGTH <=? index sta);
    [now apply refill_length | assumption].
Qed.

Lemma nextInts_length (P : Platform) (n : nat) :
  forall (sta : StdinReader_state) (e : Env),
    List.length (buffer sta) = sizeof_buffer P ->
    List.length (buffer (snd (fst (nextInts P n sta e)))) = sizeof_buffer P.
Proof.
  induction n as [|n IH]; intros sta e Hlen; [assumption|].
  rewrite nextInts_S. cbv zeta. cbn [fst snd]. apply IH.
  rewrite nextInt_eq. cbn [fst snd buffer]. now apply selected_length.
Qed.

(** X5.  The buffer made by [createStdinReader] has room for
    [BUFFER_LENGTH] values of [unsigned long], whatever memory it was
    given, and every call keeps that size.  Whatever the index is before
    a call of [nextInt], even one beyond the buffer, the slot the call
    reads lies inside the buffer, and the index after the call is
    between [1] and [BUFFER_LENGTH]. *)
Theorem nextInt_stays_inside_buffer (P : Platform) :
  (forall junk : list byte,
      List.length (buffer (state (created P junk))) = sizeof_buffer P)
  /\ (forall (par : void_ptr) (sta : StdinReader_state) (e : Env),
         List.length (buffer sta) = sizeof_buffer P ->
         let sel := fst (selected P sta e) in
         let sta' := snd (fst (nextInt P par sta e)) in
         ((N.to_nat (index sel) + 1) * sizeof_unsigned_long P
          <= List.length (buffer sel))%nat
         /\ List.length (buffer sta') = sizeof_buffer P
         /\ 1 <= index sta' <= BUFFER_LENGTH)
  /\ (forall (n : nat) (sta : StdinReader_state) (e : Env),
         List.length (buffer sta) = sizeof_buffer P ->
         List.length (buffer (snd (fst (nextInts P n sta e))))
         = sizeof_buffer P).
Proof.
  split; [|split].
  - apply created_buffer_length.
  - intros par sta e Hlen. cbv zeta.
    pose proof (selected_index P sta e) as Hidx.
    pose proof (selected_length P sta e Hlen) as Hsel.
    refine (conj _ (conj _ _)).
    + rewrite Hsel. unfold sizeof_buffer, BUFFER_LENGTH in *. nia.
    + rewrite nextInt_eq. cbn [fst snd buffer]. exact Hsel.
    + rewrite nextInt_index. lia.
  - intros n sta e Hlen. now apply nextInts_length.
Qed.

(** A state whose index is far beyond the buffer is brought back. *)
Lemma nextInt_stays_inside_buffer_witness :
  1 <= index (snd (fst (nextInt LP64 NULL
                          {| buffer := repeat x00 (sizeof_buffer LP64);
                             index := 4294967295 |}
                          (env_of (Mem.words32 LP64 words12)))))
    <= BUFFER_LENGTH.
Proof.
  pose proof (nextInt_stays_inside_buffer LP64) as [_ [Hcall _]].
  apply (Hcall NULL {| buffer := repeat x00 (sizeof_buffer LP64);
                       index := 4294967295 |}
               (env_of (Mem.words32 LP64 words12))).
  vm_compute. reflexivity.
Defined.

(** ** Short streams *)

Lemma refill_keeps_unreached_slot (P : Platform) (sta : StdinReader_state)
    (e : Env) (i : nat) :
  (List.length (unread (stdin e)) <= i * sizeof_unsigned_long P)%nat ->
  Mem.ulong_at P (buffer (fst (refill P sta e))) (N.of_nat i)
  = Mem.ulong_at P (buffer sta) (N.of_nat i).
Proof.
  intros Hshort. rewrite refill_eq. cbn [fst buffer].
  unfold Mem.ulong_at. rewrite Nat2N.id. f_equal. f_equal.
  set (got := firstn (sizeof_unsigned_long P * N.to_nat BUFFER_LENGTH)
                     (unread (stdin e))).
  assert (Hgot : (List.length got <= i * sizeof_unsigned_long P)%nat).
  { unfold got. rewrite length_firstn. lia. }
  rewrite skipn_app, skipn_all2, skipn_skipn by exact Hgot.
  cbn [app]. f_equal. lia.
Qed.

(** X6.  [nextInt] does not look at what [fread] returns.  When the
    stream ends before slot [k] of the buffer, the refill leaves that
    slot as it was, and the call that reaches it returns the old
    contents of the buffer (after [createStdinReader]: of memory that
    was never written). *)
Theorem short_stream_returns_old_buffer (P : Platform) (n k : nat)
    (sta : StdinReader_state) (e : Env) :
  BUFFER_LENGTH <= index sta ->
  N.of_nat n <= BUFFER_LENGTH ->
  (k < n)%nat ->
  (List.length (unread (stdin e)) <= k * sizeof_unsigned_long P)%nat ->
  nth k (fst (fst (nextInts P n sta e))) 0
  = Mem.ulong_at P (buffer sta) (N.of_nat k) mod 2 ^ 32.
Proof.
  intros Hend Hn Hk Hshort.
  rewrite run_from_end_slots by assumption.
  rewrite (nth_indep _ 0 (slot32 P (buffer (fst (refill P sta e))) 0))
    by (rewrite length_map, length_seq; exact Hk).
  rewrite map_nth, seq_nth by exact Hk. cbn [Nat.add].
  unfold slot32. now rewrite refill_keeps_unreached_slot.
Qed.

(** Two words on the stream of a 32-bit machine: the third call returns
    what the buffer held before. *)
Lemma short_stream_returns_old_buffer_witness :
  nth 2 (fst (fst (nextInts ILP32 3
                     {| buffer := repeat x2a (sizeof_buffer ILP32);
                        index := BUFFER_LENGTH |}
                     (env_of (Mem.words32 ILP32 [1; 2]))))) 0
  = 707406378.
Proof.
  etransitivity.
  - apply (short_stream_returns_old_buffer ILP32 3 2).
    + vm_compute. discriminate.
    + vm_compute. discriminate.
    + lia.
    + vm_compute. lia.
  - vm_compute. reflexivity.
Defined.

(** ** After the end of the stream *)

Lemma refill_at_eof (P : Platform) (sta : StdinReader_state) (e : Env) :
  unread (stdin e) = [] ->
  buffer (fst (refill P sta e)) = buffer sta
  /\ unread (stdin (snd (refill P sta e))) = [].
Proof.
  intros Heof. rewrite refill_eq, Heof. cbn [fst snd buffer stdin unread].
  rewrite firstn_nil, skipn_nil. split; reflexivity.
Qed.

Lemma eof_cycle (P : Platform) (n : nat) :
  forall (sta : StdinReader_state) (e : Env),
    BUFFER_LENGTH <= index sta ->
    unread (stdin e) = [] ->
    fst (fst (nextInts P n sta e))
    = map (fun k => slot32 P (buffer sta) (k mod N.to_nat BUFFER_LENGTH))
          (seq 0 n)
    /\ buffer (snd (fst (nextInts P n sta e))) = buffer sta.
Proof.
  induction n as [n IH] using lt_wf_ind. intros sta e Hend Heof.
  set (B := N.to_nat BUFFER_LENGTH).
  assert (HB : B = 256%nat) by reflexivity.
  destruct (refill_at_eof P sta e Heof) as [Hbuf Hrest].
  destruct (Nat.le_gt_cases n B) as [Hsmall|Hbig].
  - split.
    + rewrite run_from_end_slots by (assumption || lia). rewrite Hbuf.
      apply map_ext_in. intros k Hk. apply in_seq in Hk.
      now rewrite Nat.mod_small by lia.
    + destruct n as [|n]; [reflexivity|].
      destruct (nextInts_from_end P (S n) sta e Hend) as [Hsta _];
        [lia | lia |].
      rewrite Hsta. exact Hbuf.
  - replace n with (B + (n - B))%nat by lia.
    rewrite nextInts_plus, seq_app, map_app. cbv zeta. cbn [fst snd].
    destruct (nextInts_from_end P B sta e Hend) as [Hsta He]; [lia | lia |].
    destruct (IH (n - B)%nat ltac:(lia)
                 (snd (fst (nextInts P B sta e))) (snd (nextInts P B sta e)))
      as [Hvals Hkeep].
    { rewrite Hsta. cbn [index]. lia. }
    { rewrite He. exact Hrest. }
    rewrite Hvals, Hkeep, Hsta. cbn [buffer]. rewrite Hbuf.
    split; [|reflexivity].
    f_equal.
    + rewrite run_from_end_slots by (assumption || lia). rewrite Hbuf.
      apply map_ext_in. intros k Hk. apply in_seq in Hk.
      now rewrite Nat.mod_small by lia.
    + assert (Hseq : seq (0 + B) (n - B)
                     = map (fun k => (B + k)%nat) (seq 0 (n - B)))
        by (rewrite seq_from; f_equal; lia).
      rewrite Hseq, map_map. apply map_ext. intros k. f_equal.
      replace (B + k)%nat with (k + 1 * B)%nat by lia.
      now rewrite Nat.Div0.mod_add.
Qed.

(** X7.  Once the stream is exhausted the program goes on for ever on
    the last contents of the buffer: every refill leaves the buffer as it
    is, and the [k]-th call from a refill point returns slot
    [k mod BUFFER_LENGTH]. *)
Theorem exhausted_stream_repeats_buffer (P : Platform) (n : nat)
    (sta : StdinReader_state) (e : Env) :
  BUFFER_LENGTH <= index sta ->
  unread (stdin e) = [] ->
  (forall k : nat,
      (k < n)%nat ->
      nth k (fst (fst (nextInts P n sta e))) 0
      = Mem.ulong_at P (buffer sta)
          (N.of_nat (k mod N.to_nat BUFFER_LENGTH)) mod 2 ^ 32)
  /\ buffer (snd (fst (nextInts P n sta e))) = buffer sta
  /\ unread (stdin (snd (nextInts P n sta e))) = [].
Proof.
  intros Hend Heof.
  destruct (eof_cycle P n sta e Hend Heof) as [Hvals Hkeep].
  refine (conj _ (conj Hkeep _)).
  - intros k Hk. rewrite Hvals.
    rewrite (nth_indep _ 0 (slot32 P (buffer sta) (0 mod N.to_nat BUFFER_LENGTH)))
      by (rewrite length_map, length_seq; exact Hk).
    rewrite (map_nth (fun k => slot32 P (buffer sta)
                                 (k mod N.to_nat BUFFER_LENGTH))),
      seq_nth by exact Hk.
    reflexivity.
  - rewrite (env_after_calls P n sta e Hend). cbn [stdin unread].
    rewrite Heof. apply skipn_nil.
Qed.

(** With nothing on the stream, call 258 returns slot 1 again. *)
Lemma exhausted_stream_repeats_buffer_witness :
  nth 257 (fst (fst (nextInts ILP32 300
                       {| buffer := Mem.words32 ILP32 words3
                                    ++ repeat x00 (sizeof_buffer ILP32 - 12);
                          index := BUFFER_LENGTH |}
                       (env_of [])))) 0
  = 20.
Proof.
  destruct (exhausted_stream_repeats_buffer ILP32 300
              {| buffer := Mem.words32 ILP32 words3
                           ++ repeat x00 (sizeof_buffer ILP32 - 12);
                 index := BUFFER_LENGTH |}
              (env_of [])) as [Hvals _].
  - vm_compute. discriminate.
  - reflexivity.
  - rewrite (Hvals 257%nat) by lia. vm_compute. reflexivity.
Defined.

(** ** Both value callbacks on one reader *)

(** X8.  [nextDouble] and [nextInt] draw from the same buffer through
    the same index: a caller that mixes the two callbacks in any order
    gets, request by request, the values that calls of [nextInt] alone
    would have returned (divided by [2^32] where a double was asked
    for), and leaves the reader and the stream in the same state. *)
Theorem mixed_calls_share_one_sequence (P : Platform)
    (reqs : list request) :
  forall (sta : StdinReader_state) (e : Env),
    let run := nextInts P (List.length reqs) sta e in
    serve P reqs sta e
    = (map (fun rv => answer (fst rv) (snd rv))
           (combine reqs (fst (fst run))),
       snd (fst run), snd run).
Proof.
  induction reqs as [|r reqs IH]; intros sta e; [reflexivity|].
  cbv zeta in *. cbn [List.length]. rewrite nextInts_S. cbv zeta.
  destruct r; cbn [serve].
  - destruct (nextInt P NULL sta e) as [[v sta1] e1] eqn:Hcall.
    cbn [fst snd]. rewrite IH. reflexivity.
  - rewrite nextDouble_eq.
    destruct (nextInt P NULL sta e) as [[v sta1] e1] eqn:Hcall.
    cbn [fst snd]. rewrite IH. reflexivity.
Qed.

(** ** The dispatcher, continued *)

Section MainMore.
Variable P : Platform.
Variables bS bC bB : unif01_Gen -> Env -> unif01_Gen * Env.
Variable junk : list byte.

(** X9.  [main] looks at [argv[1]] and at nothing else of its argument
    vector: the program name and any argument after the first have no
    effect on what the program does. *)
Theorem only_first_argument_counts (argv argv' : list string) (p : Proc) :
  nth_error argv 1 = nth_error argv' 1 ->
  main P bS bC bB junk argv p = main P bS bC bB junk argv' p.
Proof.
  intros Hsame. destruct (nth_error argv' 1) as [s|] eqn:Harg'.
  - now rewrite (main_with_argument P bS bC bB junk argv s p Hsame),
      (main_with_argument P bS bC bB junk argv' s p Harg').
  - apply nth_error_None in Hsame, Harg'.
    now rewrite !main_without_argument by lia.
Qed.

(** X10.  Heap accounting over a whole run of [main], for every
    argument vector: no block is freed that is not allocated, none is
    freed twice; when [main] returns, the three blocks of the generator
    have all been freed, and at both calls of [exit] all three are still
    allocated. *)
Theorem heap_is_balanced_on_return (argv : list string) (p : Proc) :
  match main P bS bC bB junk argv p with
  | Ret _ p' =>
      exists evs, trace p' = trace p ++ evs /\ heap_after evs [] = Some []
  | Exit _ p' =>
      exists evs, trace p' = trace p ++ evs
                  /\ heap_after evs [] = Some [StateBlock; GenBlock; NameBlock]
  | Undefined => False
  end.
Proof.
  destruct (nth_error argv 1) as [s|] eqn:Harg.
  - rewrite (main_with_argument P bS bC bB junk argv s p Harg).
    destruct (CString.strcmp s TU_S =? 0)%Z;
      [|destruct (CString.strcmp s TU_C =? 0)%Z;
        [|destruct (CString.strcmp s TU_B =? 0)%Z]].
    + rewrite (run_known P bS bC bB junk SmallCrush).
      eexists. split; reflexivity.
    + rewrite (run_known P bS bC bB junk Crush).
      eexists. split; reflexivity.
    + rewrite (run_known P bS bC bB junk BigCrush).
      eexists. split; reflexivity.
    + rewrite run_unknown. eexists. split; reflexivity.
  - apply nth_error_None in Harg.
    rewrite main_without_argument by lia.
    eexists. split; reflexivity.
Qed.

End MainMore.

Lemma only_first_argument_counts_witness :
  main LP64 (sample_battery LP64 1) (sample_battery LP64 2)
       (sample_battery LP64 3) [] (sample_argv "Crush")
       (start (Mem.words32 LP64 words12))
  = main LP64 (sample_battery LP64 1) (sample_battery LP64 2)
         (sample_battery LP64 3) []
         ["renamed"; "Crush"; "BigCrush"; "-v"]%string
         (start (Mem.words32 LP64 words12)).
Proof.
  apply (only_first_argument_counts LP64 (sample_battery LP64 1)
           (sample_battery LP64 2) (sample_battery LP64 3) []
           (sample_argv "Crush")
           ["renamed"; "Crush"; "BigCrush"; "-v"]%string).
  reflexivity.
Defined.

(** ** Precision of [nextDouble] *)

(** X12.  A value of [nextDouble] carries the 32 bits of one value of
    [nextInt] and no more: multiplied by [2^32] it is that integer, so it
    is a multiple of [2^-32], at most [1 - 2^-32], and it is [0] exactly
    when the integer is [0]. *)
Theorem nextDouble_has_32_bits (P : Platform) (par : void_ptr)
    (sta : StdinReader_state) (e : Env) :
  let r := fst (fst (nextInt P par sta e)) in
  let d := fst (fst (nextDouble P par sta e)) in
  (d * inject_Z 4294967296 == inject_Z (Z.of_N r))%Q
  /\ (d <= inject_Z 4294967295 / inject_Z 4294967296)%Q
  /\ ((d == 0)%Q <-> r = 0).
Proof.
  cbv zeta. rewrite nextDouble_eq. cbn [fst snd].
  pose proof (nextInt_value_lt P par sta e) as Hlt.
  change (2 ^ 32) with 4294967296 in Hlt.
  set (r := fst (fst (nextInt P par sta e))) in *.
  assert (Hc : ~ (inject_Z 4294967296 == 0)%Q) by discriminate.
  refine (conj _ (conj _ _)).
  - now apply Qdiv_mult_l.
  - unfold Qdiv. apply Qmult_le_compat_r; [|discriminate].
    rewrite <- Zle_Qle. lia.
  - split.
    + intros Hd. unfold Qeq, Qdiv, Qmult, Qinv in Hd.
      cbn [Qnum Qden inject_Z] in Hd. lia.
    + intros ->. reflexivity.
Qed.

(** ** The first block after creation *)

(** C7.  [createStdinReader] leaves the index at [BUFFER_LENGTH], so the
    first [nextInt] refills before it returns: one [fread] takes the
    first block of [BUFFER_LENGTH] items off the stream into the buffer,
    and the value returned is the first item of the stream.  Calls [1]
    to [BUFFER_LENGTH] after creation make that one [fread] in all, read
    one block and return its items in order; the next call makes the
    second [fread], takes the second block and returns its first
    item. *)
Theorem first_block_takes_one_refill (P : Platform) (junk : list byte)
    (p : Proc) :
  exists gen p',
    createStdinReader P junk p = Ret gen p'
    /\ index (state gen) = BUFFER_LENGTH
    /\ forall e : Env,
        let input := unread (stdin e) in
        let sz := sizeof_unsigned_long P in
        let first := nextInt P NULL (state gen) e in
        let block := nextInts P (N.to_nat BUFFER_LENGTH) (state gen) e in
        let next := nextInt P NULL (snd (fst block)) (snd block) in
        (reads (stdin (snd first)) = S (reads (stdin e))
         /\ unread (stdin (snd first)) = skipn (sizeof_buffer P) input
         /\ buffer (snd (fst first))
            = firstn (sizeof_buffer P) input
              ++ skipn (List.length (firstn (sizeof_buffer P) input))
                       (buffer (state gen))
         /\ index (snd (fst first)) = 1
         /\ ((sz <= List.length input)%nat ->
             fst (fst first) = stream_item P input 0))
        /\ (forall n : nat,
               (1 <= n)%nat -> N.of_nat n <= BUFFER_LENGTH ->
               let run := nextInts P n (state gen) e in
               reads (stdin (snd run)) = S (reads (stdin e))
               /\ unread (stdin (snd run)) = skipn (sizeof_buffer P) input
               /\ buffer (snd (fst run)) = buffer (snd (fst first))
               /\ index (snd (fst run)) = N.of_nat n)
        /\ ((sizeof_buffer P <= List.length input)%nat ->
            fst (fst block)
            = map (stream_item P input) (seq 0 (N.to_nat BUFFER_LENGTH))
            /\ buffer (snd (fst block)) = firstn (sizeof_buffer P) input)
        /\ (reads (stdin (snd next)) = S (S (reads (stdin e)))
            /\ unread (stdin (snd next)) = skipn (2 * sizeof_buffer P) input
            /\ index (snd (fst next)) = 1
            /\ ((sizeof_buffer P + sz <= List.length input)%nat ->
                fst (fst next)
                = stream_item P input (N.to_nat BUFFER_LENGTH))).
Proof.
  exists (created P junk), (after_create p).
  split; [apply createStdinReader_eq|].
  split; [reflexivity|].
  intros e. cbv zeta.
  set (sta0 := state (created P junk)).
  set (B := N.to_nat BUFFER_LENGTH).
  assert (HB : B = 256%nat) by reflexivity.
  assert (Hsb : sizeof_buffer P = (sizeof_unsigned_long P * B)%nat)
    by (unfold sizeof_buffer; fold B; apply Nat.mul_comm).
  assert (Hend : BUFFER_LENGTH <= index sta0) by (cbn; lia).
  assert (Hrun : forall n : nat,
             (1 <= n)%nat -> N.of_nat n <= BUFFER_LENGTH ->
             snd (fst (nextInts P n sta0 e))
             = {| buffer := buffer (fst (refill P sta0 e));
                  index := N.of_nat n |}
             /\ snd (nextInts P n sta0 e) = snd (refill P sta0 e))
    by (intros n H1 Hn; now apply nextInts_from_end).
  destruct (Hrun B) as [Hsta He]; [lia | lia |].
  rewrite (nextInt_at_end P NULL sta0 e Hend).
  refine (conj _ (conj _ (conj _ _))).
  - cbn [fst snd index].
    refine (conj _ (conj _ (conj _ (conj eq_refl _)))).
    + rewrite refill_eq. reflexivity.
    + apply refill_unread.
    + rewrite refill_eq, Hsb. reflexivity.
    + intros Hlen.
      apply (refill_slot32 P sta0 e 0);
        [change (N.to_nat BUFFER_LENGTH) with 256%nat; lia | lia].
  - intros n H1 Hn. cbv zeta. destruct (Hrun n H1 Hn) as [Hn1 Hn2].
    rewrite Hn1, Hn2, refill_eq, Hsb.
    cbn [fst snd stdin unread reads buffer index].
    repeat split.
  - intros Hfull. split.
    + apply items_in_order; [exact Hend | fold B; lia].
    + rewrite Hsta. cbn [buffer].
      apply refill_replaces_buffer; [apply created_buffer_length | exact Hfull].
  - assert (Hend' : BUFFER_LENGTH
                    <= index (snd (fst (nextInts P B sta0 e))))
      by (rewrite Hsta; cbn [index]; lia).
    rewrite (nextInt_at_end P NULL _ _ Hend'). cbn [fst snd index].
    refine (conj _ (conj _ (conj eq_refl _))).
    + rewrite refill_eq. cbn [snd stdin reads]. rewrite He, refill_eq.
      reflexivity.
    + rewrite refill_unread, He, refill_unread, skipn_skipn.
      f_equal. unfold sizeof_buffer. lia.
    + intros Hlen.
      change (uint32 (Mem.ulong_at P ?b 0)) with (slot32 P b 0).
      rewrite refill_slot32.
      * rewrite He, refill_unread. fold B.
        rewrite stream_item_skipn. f_equal; lia.
      * fold B. lia.
      * rewrite He, refill_unread, length_skipn.
        unfold sizeof_buffer in Hlen. lia.
Qed.

(** A stream of 600 words on a 64-bit machine: one hundred calls have
    read one block, and call 257, the first of the second block,
    returns item 256 of the stream. *)
Lemma first_block_takes_one_refill_witness :
  let e := env_of (Mem.words32 LP64 (repeat 7 600)) in
  let sta0 := state (created LP64 []) in
  let block := nextInts LP64 (N.to_nat BUFFER_LENGTH) sta0 e in
  unread (stdin (snd (nextInts LP64 100 sta0 e)))
  = skipn (sizeof_buffer LP64) (unread (stdin e))
  /\ fst (fst (nextInt LP64 NULL (snd (fst block)) (snd block)))
     = stream_item LP64 (unread (stdin e)) (N.to_nat BUFFER_LENGTH).
Proof.
  cbv zeta.
  destruct (first_block_takes_one_refill LP64 [] (start []))
    as [gen [p' [Hgen [_ Hruns]]]].
  rewrite createStdinReader_eq in Hgen.
  injection Hgen as <- _.
  destruct (Hruns (env_of (Mem.words32 LP64 (repeat 7 600))))
    as [_ [Hn [_ [_ [_ [_ Hnext]]]]]].
  split.
  - apply (Hn 100%nat).
    + lia.
    + vm_compute. discriminate.
  - apply Hnext. vm_compute. lia.
Defined.
